(** * purefunccore: functional bindings for io.Reader, io.Writer,
      http.Handler and fmt.Stringer, and their combinators.

    The Go functions are closures over an ambient world (whatever the
    wrapped functions read and write) and, for some combinators, over a
    private captured variable.  They are embedded as computations in a
    state monad that can also panic. *)

From Stdlib Require Import ZArith Lia.
From stdpp Require Import gmap strings list.

Local Open Scope Z_scope.

(** ** Computations: state passing, with panics *)

Inductive outcome (W A : Type) : Type :=
| Return (a : A) (w : W)
| Panic.
Arguments Return {W A} a w.
Arguments Panic {W A}.

Definition M (W A : Type) : Type := W -> outcome W A.

Definition ret {W A} (a : A) : M W A := fun w => Return a w.

Definition bind {W A B} (m : M W A) (k : A -> M W B) : M W B :=
  fun w => match m w with
           | Return a w' => k a w'
           | Panic => Panic
           end.

Definition panic {W A} : M W A := fun _ => Panic.

Notation "'let*' x ':=' m 'in' k" := (bind m (fun x => k))
  (at level 10, x pattern, m at level 100, k at level 200).
Notation "m ';;;' k" := (bind m (fun _ => k))
  (at level 100, k at level 200, right associativity).

(** A closure that captures a variable: its initial value, and the code
    of the function literal, which runs on the variable paired with the
    ambient world. *)
Record closure (S F : Type) : Type := Closure { captured : S; code : F }.
Arguments Closure {S F} captured code.
Arguments captured {S F} c.
Arguments code {S F} c.

Section Captured.
Context {S W : Type}.

(** Read the captured variable. *)
Definition load : M (S * W) S := fun sw => Return (fst sw) sw.

(** Assign the captured variable. *)
Definition store (s : S) : M (S * W) unit := fun sw => Return tt (s, snd sw).

(** Call a function that cannot see the captured variable. *)
Definition call {A} (m : M W A) : M (S * W) A :=
  fun sw => match m (snd sw) with
            | Return a w' => Return a (fst sw, w')
            | Panic => Panic
            end.

(** Run code that allocates a variable of its own, dropped at the end. *)
Definition scoped {A} (s : S) (m : M (S * W) A) : M W A :=
  fun w => match m (s, w) with
           | Return a sw => Return a (snd sw)
           | Panic => Panic
           end.
End Captured.

(** The state in which a freshly built closure starts. *)
Definition start {S F W} (c : closure S F) (w : W) : S * W := (captured c, w).

(** Observation of calls: the world is extended with a log, and [observe e m]
    is [m] recording [e] when it is called. *)
Definition observe {E W A} (e : E) (m : M W A) : M (list E * W) A :=
  fun tw => match m (snd tw) with
            | Return a w' => Return a (fst tw ++ [e], w')
            | Panic => Panic
            end.

(** ** Go values *)

(** error values: nil, the sentinels of io and net/http that the code
    compares with or returns, and errors made by errors.New. *)
Inductive error : Type :=
| ErrNil
| EOF
| ErrShortWrite
| ErrHandlerTimeout
| errors_New (msg : string).

#[global] Instance error_eq_dec : EqDecision error.
Proof. solve_decision. Defined.

(** A failure status: neither success nor end-of-stream. *)
Definition is_failure (err : error) : bool :=
  bool_decide (err <> ErrNil /\ err <> EOF).

Definition byte := Byte.byte.

(** []byte(s) *)
Definition bytes (s : string) : list byte := String.list_byte_of_string s.

(** len(p) *)
Definition len {A} (p : list A) : Z := Z.of_nat (length p).

(** p[:n]; out of range panics (slices are modelled with cap = len). *)
Definition slice_to {W} (p : list byte) (n : Z) : M W (list byte) :=
  if decide (0 <= n <= len p) then ret (take (Z.to_nat n) p) else panic.

(** p[i]; out of range panics. *)
Definition index {W A} (p : list A) (i : nat) : M W A :=
  match p !! i with
  | Some x => ret x
  | None => panic
  end.

(** copy(dst, src): the contents of dst afterwards. *)
Definition copy (dst src : list byte) : list byte :=
  take (length dst) src ++ drop (length src) dst.

(** int64 arithmetic wraps around. *)
Definition wrap64 (z : Z) : Z := (z + 2 ^ 63) mod 2 ^ 64 - 2 ^ 63.

(** ** io.Reader bindings *)

Module ReadFunc.

(** func(p []byte) (n int, err error): the result carries the contents
    of p after the call. *)
Definition t (W : Type) : Type := list byte -> M W (Z * error * list byte).

Section Combinators.
Context {W : Type}.

Definition Read (f : t W) : t W := fun p => f p.

Definition Empty (f : t W) : t W := fun p => ret (0, EOF, p).

Definition Compose (f next : t W) : closure bool (t (bool * W)) :=
  Closure false (fun p =>
    let* exhausted := load in
    if negb exhausted then
      let* (n, err, p) := call (f p) in
      if decide (err = EOF) then
        store true;;;
        call (next p)
      else ret (n, err, p)
    else call (next p)).

(** The transform is handed the value of p[:n]; what it returns is
    copied over the beginning of p. *)
Definition Map (f : t W) (transform : list byte -> M W (list byte)) : t W :=
  fun p =>
    let* (n, err, p) := f p in
    if decide (0 < n) then
      let* s := slice_to p n in
      let* transformed := transform s in
      ret (n, err, copy p transformed)
    else ret (n, err, p).

(** f fills the slice p[:remaining], which shares its bytes with p. *)
Definition Take (f : t W) (limit : Z) : closure Z (t (Z * W)) :=
  Closure limit (fun p =>
    let* remaining := load in
    if decide (remaining <= 0) then ret (0, EOF, p)
    else
      let q := if decide (remaining < len p)
               then take (Z.to_nat remaining) p else p in
      let* (n, err, q') := call (f q) in
      store (wrap64 (remaining - n));;;
      ret (n, err, copy p q')).

(** The loop of Retry with [attempts] iterations left. *)
Fixpoint retry_loop (f : t W) (attempts : nat) (lastErr : error)
    (p : list byte) : M W (Z * error * list byte) :=
  match attempts with
  | O => ret (0, lastErr, p)
  | S attempts' =>
      let* (n, err, p) := f p in
      if decide (err = ErrNil \/ err = EOF) then ret (n, err, p)
      else retry_loop f attempts' err p
  end.

(** for i := 0; i <= maxRetries; i++ runs maxRetries+1 times, and not
    at all when maxRetries is negative (maxRetries is taken below the
    largest int, where i++ does not wrap). *)
Definition Retry (f : t W) (maxRetries : Z) : t W :=
  fun p => retry_loop f (Z.to_nat (maxRetries + 1)) ErrNil p.

(** The loop of Filter: [todo] iterations left, the indices i and j,
    and the contents of p. *)
Fixpoint filter_loop (predicate : byte -> M W bool) (todo i j : nat)
    (p : list byte) : M W (nat * list byte) :=
  match todo with
  | O => ret (j, p)
  | S todo' =>
      let* b := index p i in
      let* keep := predicate b in
      if (keep : bool) then
        filter_loop predicate todo' (S i) (S j) (<[j := b]> p)
      else filter_loop predicate todo' (S i) j p
  end.

Definition Filter (f : t W) (predicate : byte -> M W bool) : t W :=
  fun p =>
    let* (n, err, p) := f p in
    if decide (0 < n) then
      let* (j, p) := filter_loop predicate (Z.to_nat n) 0 0 p in
      ret (Z.of_nat j, err, p)
    else ret (n, err, p).

Definition Tap (f : t W) (fn : list byte -> Z -> error -> M W unit) : t W :=
  fun p =>
    let* (n, err, p) := f p in
    let* s := slice_to p n in
    fn s n err;;;
    ret (n, err, p).

End Combinators.

(** The reader with its calls counted in a log. *)
Definition counted {W} (f : t W) : t (list unit * W) :=
  fun p => observe tt (f p).

(** A sequence of reads, each into its own buffer. *)
Fixpoint reads {W} (f : t W) (ps : list (list byte))
    : M W (list (Z * error * list byte)) :=
  match ps with
  | [] => ret []
  | p :: ps' =>
      let* r := f p in
      let* rs := reads f ps' in
      ret (r :: rs)
  end.

End ReadFunc.

(** ** io.Writer bindings *)

Module WriteFunc.

(** func(p []byte) (n int, err error); a writer does not modify p. *)
Definition t (W : Type) : Type := list byte -> M W (Z * error).

Section Combinators.
Context {W : Type}.

Definition Empty (f : t W) : t W := fun p => ret (len p, ErrNil).

Definition Compose (f other : t W) : t W :=
  fun p =>
    let* (n1, err1) := f p in
    let* (n2, err2) := other p in
    if decide (err1 <> ErrNil) then ret (n1, err1)
    else if decide (err2 <> ErrNil) then ret (n2, err2)
    else if decide (n1 <> len p) then ret (n1, ErrShortWrite)
    else ret (n2, ErrNil).

(** The range loop of Tee over the writers still to be written to. *)
Fixpoint tee_loop (all : list (t W)) (p : list byte) : M W (Z * error) :=
  match all with
  | [] => ret (len p, ErrNil)
  | w :: all' =>
      let* (n, err) := w p in
      if decide (err <> ErrNil) then ret (n, err)
      else if decide (n <> len p) then ret (n, ErrShortWrite)
      else tee_loop all' p
  end.

Definition Tee (f : t W) (others : list (t W)) : t W :=
  let all := [f] ++ others in
  fun p => tee_loop all p.

Definition Map (f : t W) (transform : list byte -> M W (list byte)) : t W :=
  fun p =>
    let* transformed := transform p in
    let* (n, err) := f transformed in
    if decide (err <> ErrNil) then ret (n, err)
    else ret (len p, ErrNil).

(** The range loop of Filter: the bytes still to be looked at, and
    the slice appended to so far. *)
Fixpoint filter_loop (predicate : byte -> M W bool) (p filtered : list byte)
    : M W (list byte) :=
  match p with
  | [] => ret filtered
  | b :: p' =>
      let* keep := predicate b in
      filter_loop predicate p' (if keep then filtered ++ [b] else filtered)
  end.

Definition Filter (f : t W) (predicate : byte -> M W bool) : t W :=
  fun p =>
    let* filtered := filter_loop predicate p [] in
    let* (n, err) := f filtered in
    if decide (err <> ErrNil) then ret (n, err)
    else ret (len p, ErrNil).

End Combinators.

(** The writer [w], known as [id], with every buffer it is handed
    recorded in a log. *)
Definition logged {W} (id : nat) (w : t W) : t (list (nat * list byte) * W) :=
  fun p => observe (id, p) (w p).

End WriteFunc.

(** ** fmt.Stringer bindings *)

Module StringerFunc.

(** func() string *)
Definition t (W : Type) : Type := M W string.

Section Combinators.
Context {W : Type}.

Definition Empty (f : t W) : t W := ret ""%string.

Definition Compose (f other : t W) : t W :=
  let* a := f in
  let* b := other in
  ret (a +:+ b).

(** The range loop of Join, which calls the stringers in order. *)
Fixpoint join_loop (all : list (t W)) : M W (list string) :=
  match all with
  | [] => ret []
  | fn :: all' =>
      let* s := fn in
      let* parts := join_loop all' in
      ret (s :: parts)
  end.

(** strings.Join(parts, sep) is String.concat sep parts. *)
Definition Join (f : t W) (sep : string) (others : list (t W)) : t W :=
  let all := [f] ++ others in
  let* parts := join_loop all in
  ret (String.concat sep parts).

Definition Map (f : t W) (transform : string -> M W string) : t W :=
  let* a := f in
  transform a.

Definition WithPrefix (f : t W) (prefix : string) : t W :=
  let* a := f in
  ret (prefix +:+ a).

Definition WithSuffix (f : t W) (suffix : string) : t W :=
  let* a := f in
  ret (a +:+ suffix).

End Combinators.

End StringerFunc.

(** ** net/http: what the handler bindings use of it

    net/http, net/http/httptest and context belong to the Go standard
    library, not to the package.  The handler combinators are embedded
    over the ResponseWriter interface; http.Error and the done signal of
    the request context are arguments of the combinators that call them.
    The definitions of this module follow the documented behaviour of
    the library and serve to run the combinators on concrete requests. *)

Module http.

Definition StatusOK : Z := 200.
Definition StatusUnauthorized : Z := 401.
Definition StatusRequestTimeout : Z := 408.

Record Request : Type := {
  Method : string;
  Path : string;
  RawQuery : string;
  Header : gmap string string
}.

(** The interface http.ResponseWriter; Header() is reached through
    the two operations the code applies to it. *)
Record ResponseWriter (W : Type) : Type := {
  Header_Set : string -> string -> M W unit;
  Header_Del : string -> M W unit;
  Write : list byte -> M W (Z * error);
  WriteHeader : Z -> M W unit
}.
Arguments Header_Set {W} r _ _.
Arguments Header_Del {W} r _.
Arguments Write {W} r _.
Arguments WriteHeader {W} r _.

(** The line feed that fmt.Fprintln appends. *)
Definition LF : string := String (Ascii.ascii_of_nat 10) EmptyString.

(** http.Error of the standard library: plain-text headers, the status
    line, then the message and a line feed as the body. *)
Definition Error {W} (w : ResponseWriter W) (error : string) (code : Z)
    : M W unit :=
  Header_Del w "Content-Length"%string;;;
  Header_Set w "Content-Type"%string "text/plain; charset=utf-8"%string;;;
  Header_Set w "X-Content-Type-Options"%string "nosniff"%string;;;
  WriteHeader w code;;;
  let* _ := Write w (bytes (error +:+ LF)) in
  ret tt.

(** httptest.ResponseRecorder: the status code, the headers and the
    body that a handler produced. *)
Record ResponseRecorder : Type := {
  Code : Z;
  HeaderMap : gmap string string;
  Body : list byte;
  wroteHeader : bool
}.

Definition NewRecorder : ResponseRecorder :=
  {| Code := 200; HeaderMap := ∅; Body := []; wroteHeader := false |}.

Definition recorder_WriteHeader (code : Z) : M ResponseRecorder unit :=
  fun rw =>
    if wroteHeader rw then Return tt rw
    else Return tt {| Code := code; HeaderMap := HeaderMap rw;
                      Body := Body rw; wroteHeader := true |}.

Definition recorder_Write (b : list byte) : M ResponseRecorder (Z * error) :=
  recorder_WriteHeader 200;;;
  fun rw => Return (len b, ErrNil)
              {| Code := Code rw; HeaderMap := HeaderMap rw;
                 Body := Body rw ++ b; wroteHeader := wroteHeader rw |}.

Definition recorder : ResponseWriter ResponseRecorder := {|
  Header_Set := fun k v rw =>
      Return tt {| Code := Code rw; HeaderMap := <[k := v]> (HeaderMap rw);
                   Body := Body rw; wroteHeader := wroteHeader rw |};
  Header_Del := fun k rw =>
      Return tt {| Code := Code rw; HeaderMap := delete k (HeaderMap rw);
                   Body := Body rw; wroteHeader := wroteHeader rw |};
  Write := recorder_Write;
  WriteHeader := recorder_WriteHeader
|}.

(** A response writer seen from a closure or from an observer: its
    operations act on the second component of the state. *)
Definition lifted {S W} (w : ResponseWriter W) : ResponseWriter (S * W) := {|
  Header_Set := fun k v => call (Header_Set w k v);
  Header_Del := fun k => call (Header_Del w k);
  Write := fun b => call (Write w b);
  WriteHeader := fun c => call (WriteHeader w c)
|}.

(** The calls made on a response writer, and a writer that logs them. *)
Inductive method_call : Type :=
| CallHeaderSet (k v : string)
| CallHeaderDel (k : string)
| CallWrite (b : list byte)
| CallWriteHeader (code : Z).

Definition observed {W} (w : ResponseWriter W)
    : ResponseWriter (list method_call * W) := {|
  Header_Set := fun k v => observe (CallHeaderSet k v) (Header_Set w k v);
  Header_Del := fun k => observe (CallHeaderDel k) (Header_Del w k);
  Write := fun b => observe (CallWrite b) (Write w b);
  WriteHeader := fun c => observe (CallWriteHeader c) (WriteHeader w c)
|}.

End http.

(** ** http.Handler bindings *)

Module HandlerFunc.

(** func(w http.ResponseWriter, r *http.Request) *)
Definition t (W : Type) : Type :=
  http.ResponseWriter W -> http.Request -> M W unit.

(** timeoutWriter, without its mutex: the calls of the handler and the
    timeout path are put in one order below. *)
Record timeoutWriter : Type := {
  timedOut : Z;
  wroteHeader : bool
}.

Section Combinators.
Context {W : Type}.

(** http.Error, as linked with the package. *)
Variable http_Error : http.ResponseWriter W -> string -> Z -> M W unit.

Definition ServeHTTP (f : t W) : t W := fun w r => f w r.

Definition Empty (f : t W) : t W := fun w r => ret tt.

Definition Compose (f next : t W) : t W :=
  fun w r => f w r;;; next w r.

Definition Before (f : t W) (before : t W) : t W :=
  fun w r => before w r;;; f w r.

Definition After (f : t W) (after : t W) : t W :=
  fun w r => f w r;;; after w r.

(** fmt.Sprintf with two %s verbs is written out as concatenation. *)
Definition WithLogging (f : t W) (logger : string -> M W unit) : t W :=
  fun w r =>
    let fullPath :=
      if decide (http.RawQuery r <> ""%string)
      then (http.Path r +:+ "?" +:+ http.RawQuery r)%string
      else http.Path r in
    logger ("Request: " +:+ http.Method r +:+ " " +:+ fullPath)%string;;;
    f w r;;;
    logger ("Completed: " +:+ http.Method r +:+ " " +:+ fullPath)%string.

Definition WithCORS (f : t W) (origin : string) : t W :=
  fun w r =>
    http.Header_Set w "Access-Control-Allow-Origin"%string origin;;;
    http.Header_Set w "Access-Control-Allow-Methods"%string
      "GET, POST, PUT, DELETE, OPTIONS"%string;;;
    http.Header_Set w "Access-Control-Allow-Headers"%string
      "Content-Type, Authorization"%string;;;
    if decide (http.Method r = "OPTIONS"%string) then
      http.WriteHeader w http.StatusOK
    else f w r.

Definition WithAuth (f : t W) (authenticate : http.Request -> M W bool)
    : t W :=
  fun w r =>
    let* ok := authenticate r in
    if negb ok then
      http_Error w "Unauthorized"%string http.StatusUnauthorized
    else f w r.

(** The done signal of context.WithTimeout: [ctx_Done timeout w0 w]
    tells whether the context made with [timeout] when the world was
    [w0] is done when the world is [w]. *)
Variable ctx_Done : Z -> W -> W -> bool.

Definition timeoutWriter_Write (w : http.ResponseWriter W) (b : list byte)
    : M (timeoutWriter * W) (Z * error) :=
  let* tw := load in
  if decide (timedOut tw = 1) then ret (0, ErrHandlerTimeout)
  else call (http.Write w b).

Definition timeoutWriter_WriteHeader (w : http.ResponseWriter W) (code : Z)
    : M (timeoutWriter * W) unit :=
  let* tw := load in
  if decide (timedOut tw = 1) then ret tt
  else if negb (wroteHeader tw) then
    store {| timedOut := timedOut tw; wroteHeader := true |};;;
    call (http.WriteHeader w code)
  else ret tt.

(** The goroutine of WithTimeout, waiting in its select while the
    handler runs: once the context is done it stores 1 in timedOut. *)
Definition select_ctx_Done (timeout : Z) (w0 : W)
    : M (timeoutWriter * W) unit :=
  let* tw := load in
  let* fired := call (fun w => Return (ctx_Done timeout w0 w) w) in
  if (fired : bool) then
    store {| timedOut := 1; wroteHeader := wroteHeader tw |}
  else ret tt.

(** tw as the handler sees it.  The handler runs on a goroutine of
    its own; its calls of Write and WriteHeader are the points at
    which it can observe the store of the other goroutine, which is
    therefore given its turn before each of them.  The header
    operations are those of the embedded writer. *)
Definition guarded (timeout : Z) (w0 : W) (w : http.ResponseWriter W)
    : http.ResponseWriter (timeoutWriter * W) := {|
  http.Header_Set := fun k v => call (http.Header_Set w k v);
  http.Header_Del := fun k => call (http.Header_Del w k);
  http.Write := fun b =>
    select_ctx_Done timeout w0;;; timeoutWriter_Write w b;
  http.WriteHeader := fun c =>
    select_ctx_Done timeout w0;;; timeoutWriter_WriteHeader w c
|}.

(** The handler is run to its end (the close of done), observing the
    store of timedOut from the moment the context is done; the select
    then takes the branch of ctx.Done() if the context was done before
    the handler finished, and the branch of done otherwise. *)
Definition WithTimeout (f : t (timeoutWriter * W)) (timeout : Z) : t W :=
  fun w r w0 =>
    scoped {| timedOut := 0; wroteHeader := false |}
      (f (guarded timeout w0 w) r;;;
       select_ctx_Done timeout w0;;;
       let* tw := load in
       if decide (timedOut tw = 1) then
         if negb (wroteHeader tw) then
           call (http.WriteHeader w http.StatusRequestTimeout);;;
           let* _ := call (http.Write w
                             (bytes ("Request timeout" +:+ http.LF))) in
           ret tt
         else ret tt
       else ret tt) w0.

End Combinators.

End HandlerFunc.

(** ** error bindings *)

Module ErrorFunc.

(** func() string *)
Definition t (W : Type) : Type := M W string.

Section Combinators.
Context {W : Type}.

Definition Error (f : t W) : t W := f.

Definition Empty (f : t W) : error := ErrNil.

Definition Compose (f other : t W) : t W :=
  let* a := f in
  let* b := other in
  ret ((a +:+ "; ") +:+ b).

Definition Wrap (f : t W) (context : string) : t W :=
  let* a := f in
  ret ((context +:+ ": ") +:+ a).

End Combinators.

End ErrorFunc.

(** ** Helper functions *)

Section Helpers.
Context {W : Type}.

(** ComposeReaders: idx is the captured variable. *)
Definition ComposeReaders (readers : list (ReadFunc.t W))
    : closure nat (ReadFunc.t (nat * W)) :=
  Closure 0%nat (fun p =>
    let* idx := load in
    if decide (length readers <= idx)%nat then ret (0, EOF, p)
    else
      let* rd := index readers idx in
      let* (n, err, p) := call (rd p) in
      if decide (err = EOF) then
        store (S idx);;;
        let idx := S idx in
        if decide (length readers <= idx)%nat then ret (n, EOF, p)
        else if decide (n = 0) then
          let* rd := index readers idx in
          call (rd p)
        else ret (n, err, p)
      else ret (n, err, p)).

(** The range loop of TeeWriter. *)
Fixpoint TeeWriter_loop (writers : list (WriteFunc.t W)) (p : list byte)
    : M W (Z * error) :=
  match writers with
  | [] => ret (len p, ErrNil)
  | w :: writers' =>
      let* (n, err) := w p in
      if decide (err <> ErrNil) then ret (n, err)
      else if decide (n <> len p) then ret (n, ErrShortWrite)
      else TeeWriter_loop writers' p
  end.

Definition TeeWriter (writers : list (WriteFunc.t W)) : WriteFunc.t W :=
  fun p => TeeWriter_loop writers p.

(** WriteMetrics, without its mutex; the counters are int64 and the
    duration is in nanoseconds. *)
Record WriteMetrics : Type := {
  TotalBytes : Z;
  TotalWrites : Z;
  TotalDuration : Z;
  Errors : Z
}.

(** time.Now(), read off the world. *)
Variable Now : W -> Z.

(** WithMetrics: metrics is a pointer that the caller keeps, modelled
    as a component of the world next to what the writer acts on. *)
Definition WithMetrics (w : WriteFunc.t W) : WriteFunc.t (WriteMetrics * W) :=
  fun p =>
    let* start := call (fun s => Return (Now s) s) in
    let* (n, err) := call (w p) in
    let* m := load in
    let bytes' := wrap64 (TotalBytes m + n) in
    let writes' := wrap64 (TotalWrites m + 1) in
    let* now := call (fun s => Return (Now s) s) in
    let duration' := wrap64 (TotalDuration m + wrap64 (now - start)) in
    let errors' := if decide (err <> ErrNil) then wrap64 (Errors m + 1)
                   else Errors m in
    store {| TotalBytes := bytes'; TotalWrites := writes';
             TotalDuration := duration'; Errors := errors' |};;;
    ret (n, err).

End Helpers.

(** * Vocabulary of the properties *)

(** ** Sinks *)

Section WriteVocabulary.
Context {W : Type}.

(** What WriteFunc.Compose reports for a buffer of length [l], from the
    results of its two writers. *)
Definition compose_result (l : Z) (r1 r2 : Z * error) : Z * error :=
  if decide (r1.2 <> ErrNil) then r1
  else if decide (r2.2 <> ErrNil) then r2
  else if decide (r1.1 <> l) then (r1.1, ErrShortWrite)
  else (r2.1, ErrNil).

(** The writers of a list all accept the whole of [p], one after the
    other, taking the world from [w] to [w']. *)
Inductive writes_all (p : list byte)
    : list (WriteFunc.t W) -> W -> W -> Prop :=
| writes_all_nil w : writes_all p [] w w
| writes_all_cons s ss w w1 w2 :
    s p w = Return (len p, ErrNil) w1 ->
    writes_all p ss w1 w2 ->
    writes_all p (s :: ss) w w2.

(** What Tee reports when the writer it stops at returned [r]. *)
Definition tee_failure (r : Z * error) : Z * error :=
  if decide (r.2 <> ErrNil) then r else (r.1, ErrShortWrite).

End WriteVocabulary.

(** The writers of a list, each logged under its position, counted
    from [i]. *)
Definition logged_from {W} (i : nat) (ws : list (WriteFunc.t W))
    : list (WriteFunc.t (list (nat * list byte) * W)) :=
  imap (fun j => WriteFunc.logged (i + j)) ws.

(** The log of [k] writers, numbered from [i], that were each handed [p]. *)
Definition handed (p : list byte) (i k : nat) : list (nat * list byte) :=
  (fun j => (j, p)) <$> seq i k.

(** A short write of the first sink of a pairwise composition is
    reported at once: the result is that short write, and the world is
    as the first sink left it, the second sink not having run. *)
Definition short_write_skips_second : Prop :=
  forall (W : Type) (f other : WriteFunc.t W) p w n1 w1,
    f p w = Return (n1, ErrNil) w1 ->
    n1 <> len p ->
    WriteFunc.Compose f other p w = Return (n1, ErrShortWrite) w1.

(** Two sinks over a log of the buffers written: one that accepts
    nothing and one that accepts everything. *)
Definition refusing (id : nat) : WriteFunc.t (list (nat * list byte)) :=
  fun p l => Return (0, ErrNil) (l ++ [(id, p)]).
Definition accepting (id : nat) : WriteFunc.t (list (nat * list byte)) :=
  fun p l => Return (len p, ErrNil) (l ++ [(id, p)]).
Definition failing (id : nat) (msg : string)
    : WriteFunc.t (list (nat * list byte)) :=
  fun p l => Return (0, errors_New msg) (l ++ [(id, p)]).

(** "hi" *)
Definition hi : list byte := [Byte.x68; Byte.x69].

(** ** Sources *)

(** Error statuses pass through a mapped source untouched, the transform
    not being invoked: the result, the buffer and the world are those of
    the underlying read. *)
Definition failure_skips_transform : Prop :=
  forall (W : Type) (f : ReadFunc.t W) transform p w n err p1 w1,
    f p w = Return (n, err, p1) w1 ->
    is_failure err = true ->
    ReadFunc.Map f transform p w = Return (n, err, p1) w1.

(** The count that copy(dst, src) returns. *)
Definition copied (dst src : list byte) : Z := Z.min (len dst) (len src).

(** bytes.ToUpper on ASCII letters. *)
Definition upper (b : byte) : byte :=
  let c := Byte.to_N b in
  if ((97 <=? c) && (c <=? 122))%N then default b (Byte.of_N (c - 32)) else b.
Definition ToUpper (s : list byte) : list byte := upper <$> s.

(** ToUpper as a transform that counts its invocations in the world. *)
Definition counting_ToUpper : list byte -> M nat (list byte) :=
  fun s c => Return (ToUpper s) (Datatypes.S c).

(** A source that delivers "hi" together with a failure. *)
Definition broken_pipe {W} : ReadFunc.t W :=
  fun p w => Return (copied p hi, errors_New "broken pipe", copy p hi) w.

(** The source of the tests: copies "hello world" and reports EOF. *)
Definition hello_world {W} : ReadFunc.t W :=
  fun p w => let data := bytes "hello world" in
             Return (copied p data, EOF, copy p data) w.

(** make([]byte, n) *)
Definition make (n : nat) : list byte := replicate n Byte.x00.

(** The contract of a source: it returns, with a count within the
    buffer it was given. *)
Definition obeys_contract {W} (f : ReadFunc.t W) : Prop :=
  forall p w, exists n err p' w',
    f p w = Return (n, err, p') w' /\ 0 <= n <= len p.

(** The bytes returned by a sequence of reads. *)
Definition total (rs : list (Z * error * list byte)) : Z :=
  foldr (fun r acc => r.1.1 + acc) 0 rs.

(** Reads that each return (0, EOF) and leave their buffer alone. *)
Definition end_of_stream (ps : list (list byte)) : list (Z * error * list byte) :=
  (fun p => (0, EOF, p)) <$> ps.

(** [fails_in_a_row f k e0 p w e p' w']: from the buffer [p] and the
    world [w], [k] calls of [f] in a row, each on the buffer left by the
    one before, all return a failure status; they lead to [p'] and [w'],
    and [e] is the error of the last of them ([e0] when [k] is 0). *)
Inductive fails_in_a_row {W} (f : ReadFunc.t W)
    : nat -> error -> list byte -> W -> error -> list byte -> W -> Prop :=
| fails_O e p w : fails_in_a_row f 0 e p w e p w
| fails_S k e0 p w n err p1 w1 e p' w' :
    f p w = Return (n, err, p1) w1 ->
    is_failure err = true ->
    fails_in_a_row f k err p1 w1 e p' w' ->
    fails_in_a_row f (S k) e0 p w e p' w'.

(** A source whose every call returns a failure status. *)
Definition always_fails {W} (f : ReadFunc.t W) : Prop :=
  forall p w, exists n err p' w',
    f p w = Return (n, err, p') w' /\ is_failure err = true.

(** The sources of the tests of Retry, over a world that counts the
    attempts: one fails until its third call, the other always. *)
Definition flaky : ReadFunc.t nat :=
  fun p attempts =>
    let attempts := S attempts in
    if (attempts <? 3)%nat
    then Return (0, errors_New "transient error", p) attempts
    else let data := bytes "success" in
         Return (copied p data, EOF, copy p data) attempts.

Definition persistent : ReadFunc.t nat :=
  fun p attempts => Return (0, errors_New "persistent error", p) (S attempts).

(** What WriteFunc.Map and WriteFunc.Filter report for the input [p] when
    the write they delegate to returned [r]. *)
Definition reported (p : list byte) (r : Z * error) : Z * error :=
  if decide (r.2 = ErrNil) then (len p, ErrNil) else r.

(** A transform that doubles the buffer, and a predicate for the
    lower-case letters. *)
Definition twice {W} : list byte -> M W (list byte) := fun s => ret (s ++ s).
Definition is_lower (b : byte) : bool :=
  let c := Byte.to_N b in ((97 <=? c) && (c <=? 122))%N.

(** "a1" *)
Definition a1 : list byte := [Byte.x61; Byte.x31].

(** ** Identity of composition *)

(** The outcome [o'] of a closure agrees with the outcome [o] of a
    function without captured variable. *)
Definition agrees {S W A} (o : outcome W A) (o' : outcome (S * W) A) : Prop :=
  match o with
  | Return a w => exists s, o' = Return a (s, w)
  | Panic => o' = Panic
  end.

(** ** Handlers *)

(** The request of the tests: GET /test, with the given headers. *)
Definition GET_test (headers : gmap string string) : http.Request :=
  {| http.Method := "GET"; http.Path := "/test"; http.RawQuery := "";
     http.Header := headers |}.

Definition anonymous : http.Request := GET_test ∅.
Definition with_bearer_secret : http.Request :=
  GET_test {[ "Authorization"%string := "Bearer secret"%string ]}.

(** The predicate of the tests: the Authorization header is
    "Bearer secret". *)
Definition bearer_secret {W} : http.Request -> M W bool :=
  fun r => ret (bool_decide (http.Header r !! "Authorization"%string
                             = Some "Bearer secret"%string)).

(** The handler of the tests: w.WriteHeader(http.StatusOK). *)
Definition respond_OK {W} : HandlerFunc.t W :=
  fun w r => http.WriteHeader w http.StatusOK.

(** A world with a clock, for handlers that take time: time.Sleep moves
    the clock, and a context with a timeout is done once the clock has
    advanced by the timeout. *)
Definition Sleep {W} (d : Z) : M (Z * W) unit :=
  fun cw => Return tt (cw.1 + d, cw.2).

Definition clock_Done {W} (timeout : Z) (w0 w : Z * W) : bool :=
  bool_decide (timeout <= w.1 - w0.1).

(** The response writer of the timeout scenarios: a recorder whose calls
    are logged, in a world with a clock. *)
Definition timed := (Z * (list http.method_call * http.ResponseRecorder))%type.

Definition timed_recorder : http.ResponseWriter timed :=
  http.lifted (http.observed http.recorder).

(** The handler of the test of WithTimeout: it sleeps for 100 and then
    writes its status. *)
Definition sleeps_then_responds
    : HandlerFunc.t (HandlerFunc.timeoutWriter * timed) :=
  fun w r => call (Sleep 100);;; http.WriteHeader w http.StatusOK.

(** A handler that writes the beginning of its body without calling
    WriteHeader, and then takes longer than the timeout. *)
Definition writes_then_sleeps
    : HandlerFunc.t (HandlerFunc.timeoutWriter * timed) :=
  fun w r =>
    let* _ := http.Write w (bytes "partial") in
    call (Sleep 100).

(** A source that delivers "hi" with no error. *)
Definition says_hi {W} : ReadFunc.t W :=
  fun p w => Return (copied p hi, ErrNil, copy p hi) w.

(** ** Vocabulary of the further properties *)

(** A source that keeps the contract and hands the buffer back with
    the length it had. *)
Definition well_behaved {W} (f : ReadFunc.t W) : Prop :=
  forall p w, exists n err p' w',
    f p w = Return (n, err, p') w'
    /\ 0 <= n <= len p /\ length p' = length p.

(** A source seen from a closure or from an observer. *)
Definition lifted_reader {S W} (f : ReadFunc.t W) : ReadFunc.t (S * W) :=
  fun p => call (f p).

(** An observer for Tap that records what it is handed. *)
Definition recording {W}
    : list byte -> Z -> error -> M (list (list byte * Z * error) * W) unit :=
  fun s n err lw => Return tt (lw.1 ++ [(s, n, err)], lw.2).

(** What the reads [rs] deliver: the bytes p[:n], the count, the status. *)
Definition delivered (rs : list (Z * error * list byte))
    : list (list byte * Z * error) :=
  (fun r => (take (Z.to_nat r.1.1) r.2, r.1.1, r.1.2)) <$> rs.

(** The source of the test of Filter: "abc123" with EOF. *)
Definition abc123 {W} : ReadFunc.t W :=
  fun p w => let data := bytes "abc123" in
             Return (copied p data, EOF, copy p data) w.

(** A source that reports one byte more than the buffer holds. *)
Definition overreporting {W} : ReadFunc.t W :=
  fun p w => Return (len p + 1, ErrNil, p) w.

(** Two outcomes of nested closures over the same world are alike: both
    panic, or both return the same value and leave the same world. *)
Definition alike {S1 S2 S1' S2' W A} (o : outcome (S1 * (S2 * W)) A)
    (o' : outcome (S1' * (S2' * W)) A) : Prop :=
  match o, o' with
  | Return a s, Return a' s' => a = a' /\ s.2.2 = s'.2.2
  | Panic, Panic => True
  | _, _ => False
  end.

(** The captured flags of the two groupings of three composed readers
    while the first, the second and the third reader is being read. *)
Inductive assoc_phase {W}
    : bool * (bool * W) -> bool * (bool * W) -> Prop :=
| phase_first w : assoc_phase (false, (false, w)) (false, (false, w))
| phase_second w : assoc_phase (false, (true, w)) (true, (false, w))
| phase_third b w : assoc_phase (true, (b, w)) (true, (true, w)).

(** The result [r] of a writer for a buffer of length [l], with a count
    other than [l] turned into a short write. *)
Definition normalised (l : Z) (r : Z * error) : Z * error :=
  if decide (r.2 <> ErrNil) then r
  else if decide (r.1 <> l) then (r.1, ErrShortWrite)
  else (l, ErrNil).

(** A sequence of writes. *)
Fixpoint writes {W} (f : WriteFunc.t W) (ps : list (list byte))
    : M W (list (Z * error)) :=
  match ps with
  | [] => ret []
  | p :: ps' =>
      let* r := f p in
      let* rs := writes f ps' in
      ret (r :: rs)
  end.

(** The bytes accepted and the failures in the results of writes. *)
Definition accepted (rs : list (Z * error)) : Z :=
  foldr (fun r acc => r.1 + acc) 0 rs.
Definition failures (rs : list (Z * error)) : Z :=
  foldr (fun r acc => (if decide (r.2 <> ErrNil) then 1 else 0) + acc) 0 rs.

(** The values of an int64. *)
Definition int64 (z : Z) : Prop := - 2 ^ 63 <= z < 2 ^ 63.

(** A sink that accepts one byte less than it is given. *)
Definition truncating (id : nat) : WriteFunc.t (list (nat * list byte)) :=
  fun p l => Return (len p - 1, ErrNil) (l ++ [(id, p)]).

(** The zero value of WriteMetrics. *)
Definition zero_metrics : WriteMetrics :=
  {| TotalBytes := 0; TotalWrites := 0; TotalDuration := 0; Errors := 0 |}.

(** The metrics [m'] are the metrics [m] after the writes with results
    [rs]: one more write, the count more bytes and, on an error, one
    more error for each of them, in int64 arithmetic. *)
Definition counts_from (m : WriteMetrics) (rs : list (Z * error))
    (m' : WriteMetrics) : Prop :=
  TotalWrites m' = wrap64 (TotalWrites m + len rs)
  /\ TotalBytes m' = wrap64 (TotalBytes m + accepted rs)
  /\ Errors m' = wrap64 (Errors m + failures rs).

(** The headers of a response after WithCORS has set its three. *)
Definition with_cors (origin : string) (h : gmap string string)
    : gmap string string :=
  <["Access-Control-Allow-Headers"%string :=
      "Content-Type, Authorization"%string]>
    (<["Access-Control-Allow-Methods"%string :=
         "GET, POST, PUT, DELETE, OPTIONS"%string]>
       (<["Access-Control-Allow-Origin"%string := origin]> h)).

(** A logger that appends its lines to a log. *)
Definition appending {W} : string -> M (list string * W) unit :=
  fun line lw => Return tt (lw.1 ++ [line], lw.2).

(** A handler that writes a line to the log and answers 200 on the
    response writer it is given. *)
Definition logs_then_responds {W} : HandlerFunc.t (list string * W) :=
  fun w r => appending "handling"%string;;; http.WriteHeader w http.StatusOK.

(** The path of a request, with its query when it has one. *)
Definition target (r : http.Request) : string :=
  if decide (http.RawQuery r <> ""%string)
  then (http.Path r +:+ "?" +:+ http.RawQuery r)%string
  else http.Path r.

(** A preflight request, and the request of the test of WithLogging. *)
Definition preflight : http.Request :=
  {| http.Method := "OPTIONS"; http.Path := "/test"; http.RawQuery := "";
     http.Header := ∅ |}.
Definition GET_test_foo_bar : http.Request :=
  {| http.Method := "GET"; http.Path := "/test"; http.RawQuery := "foo=bar";
     http.Header := ∅ |}.

(** Each part with the separator before it, one after the other. *)
Definition suffixes (sep : string) (parts : list string) : string :=
  foldr (fun part rest => sep +:+ part +:+ rest)%string ""%string parts.

(** A source that returns from every call. *)
Definition returns {W} (f : ReadFunc.t W) : Prop :=
  forall p w, exists r w', f p w = Return r w'.

(** The source with the count of each of its reads recorded in a log. *)
Definition metered {W} (f : ReadFunc.t W) : ReadFunc.t (list Z * W) :=
  fun p lw =>
    match f p lw.2 with
    | Return r w' => Return r (lw.1 ++ [r.1.1], w')
    | Panic => Panic
    end.

Definition sum_of (l : list Z) : Z := foldr Z.add 0 l.

(** ** Handlers that make a given sequence of calls *)

(** One call on a response writer. *)
Definition perform {W} (w : http.ResponseWriter W) (op : http.method_call)
    : M W unit :=
  match op with
  | http.CallHeaderSet k v => http.Header_Set w k v
  | http.CallHeaderDel k => http.Header_Del w k
  | http.CallWrite b => let* _ := http.Write w b in ret tt
  | http.CallWriteHeader c => http.WriteHeader w c
  end.

(** The handler that makes the calls [ops] on its response writer, one
    after the other. *)
Fixpoint performs {W} (ops : list http.method_call) : HandlerFunc.t W :=
  fun w r =>
    match ops with
    | [] => ret tt
    | op :: ops' => perform w op;;; performs ops' w r
    end.

(** A call of Write or WriteHeader. *)
Definition writes_response (op : http.method_call) : Prop :=
  match op with
  | http.CallWrite _ | http.CallWriteHeader _ => True
  | _ => False
  end.

(** A call of WriteHeader. *)
Definition is_WriteHeader (op : http.method_call) : bool :=
  match op with
  | http.CallWriteHeader _ => true
  | _ => false
  end.

(** The calls [ops] without the calls of WriteHeader that come after a
    first one ([wrote]: a first one has been made already). *)
Fixpoint first_header_only (wrote : bool) (ops : list http.method_call)
    : list http.method_call :=
  match ops with
  | [] => []
  | op :: ops' =>
      if is_WriteHeader op && wrote then first_header_only wrote ops'
      else op :: first_header_only (wrote || is_WriteHeader op) ops'
  end.

(** A response writer whose calls all return. *)
Definition writer_returns {W} (w : http.ResponseWriter W) : Prop :=
  forall op s, exists s', perform w op s = Return tt s'.

(** The handler that first lets [delay] happen and then makes the calls
    [ops]. *)
Definition delayed {S W} (delay : M W unit) (ops : list http.method_call)
    : HandlerFunc.t (S * W) :=
  fun w r => call delay;;; performs ops w r.

(** What the timeout path writes. *)
Definition timeout_response {W} (w : http.ResponseWriter W) : M W unit :=
  http.WriteHeader w http.StatusRequestTimeout;;;
  let* _ := http.Write w (bytes ("Request timeout" +:+ http.LF)) in
  ret tt.

(** A context that is never done. *)
Definition never_Done {W} : Z -> W -> W -> bool := fun _ _ _ => false.

(** The room in the buffers of a sequence of reads. *)
Definition room (ps : list (list byte)) : Z :=
  foldr (fun p acc => len p + acc) 0 ps.

(** * Properties *)

(** ** Running the monad *)

Lemma bind_Return {W A B} (m : M W A) (k : A -> M W B) w a w' :
  m w = Return a w' -> bind m k w = k a w'.
Proof. intros H. unfold bind. now rewrite H. Qed.

Lemma bind_Panic {W A B} (m : M W A) (k : A -> M W B) w :
  m w = Panic -> bind m k w = Panic.
Proof. intros H. unfold bind. now rewrite H. Qed.

Lemma call_Return {S W A} (m : M W A) (s : S) w a w' :
  m w = Return a w' -> call m (s, w) = Return a (s, w').
Proof. intros H. unfold call. simpl. now rewrite H. Qed.

Lemma call_Panic {S W A} (m : M W A) (s : S) w :
  m w = Panic -> call (S := S) m (s, w) = Panic.
Proof. intros H. unfold call. simpl. now rewrite H. Qed.

Lemma observe_Return {E W A} (e : E) (m : M W A) l w a w' :
  m w = Return a w' -> observe e m (l, w) = Return a (l ++ [e], w').
Proof. intros H. unfold observe. simpl. now rewrite H. Qed.

(** ** Sinks: pairwise composition *)

Lemma Compose_runs_both {W} (f other : WriteFunc.t W) p w r1 w1 r2 w2 :
  f p w = Return r1 w1 ->
  other p w1 = Return r2 w2 ->
  WriteFunc.Compose f other p w = Return (compose_result (len p) r1 r2) w2.
Proof.
  intros Hf Ho. unfold WriteFunc.Compose.
  rewrite (bind_Return _ _ _ _ _ Hf). destruct r1 as [n1 err1].
  rewrite (bind_Return _ _ _ _ _ Ho). destruct r2 as [n2 err2].
  unfold compose_result; simpl.
  repeat case_decide; reflexivity.
Qed.

(** C1, as stated, fails: with a first sink that accepts nothing of "hi"
    and reports no error, the second sink is written to all the same. *)
Lemma C1_second_sink_is_invoked : ~ short_write_skips_second.
Proof.
  intros H.
  specialize (H _ (refusing 0) (accepting 1) hi [] 0 [(0%nat, hi)]).
  assert (E : WriteFunc.Compose (refusing 0) (accepting 1) hi []
              = Return (0, ErrShortWrite) [(0%nat, hi); (1%nat, hi)])
    by reflexivity.
  rewrite E in H.
  specialize (H eq_refl ltac:(vm_compute; discriminate)).
  discriminate H.
Qed.

(** C1, amended: the composed sink hands the buffer to the first sink and
    then, whatever the first returned, to the second.  It reports the
    first sink's count and error if the first failed, else the second's
    if the second failed, else the first's count as a short write if the
    first accepted less than the buffer, else the second's count; so when
    the first sink fully succeeds the result is the second sink's count
    and status. *)
Theorem WriteFunc_Compose_writes_both {W} (f other : WriteFunc.t W)
    p l w r1 w1 r2 w2 :
  f p w = Return r1 w1 ->
  other p w1 = Return r2 w2 ->
  WriteFunc.Compose (WriteFunc.logged 0 f) (WriteFunc.logged 1 other) p (l, w)
    = Return (compose_result (len p) r1 r2) (l ++ [(0%nat, p); (1%nat, p)], w2)
  /\ (r1 = (len p, ErrNil) -> compose_result (len p) r1 r2 = r2)
  /\ (r1.2 = ErrNil -> r2.2 = ErrNil -> r1.1 <> len p ->
      compose_result (len p) r1 r2 = (r1.1, ErrShortWrite)).
Proof.
  intros Hf Ho. split; [|split].
  - replace (l ++ [(0%nat, p); (1%nat, p)])
      with ((l ++ [(0%nat, p)]) ++ [(1%nat, p)]) by now rewrite <- app_assoc.
    apply Compose_runs_both with (w1 := (l ++ [(0%nat, p)], w1));
      unfold WriteFunc.logged; now apply observe_Return.
  - intros ->. destruct r2 as [n2 err2]. unfold compose_result; simpl.
    repeat case_decide; simpl in *; congruence.
  - intros E1 E2 Hn. unfold compose_result.
    repeat case_decide; congruence.
Qed.

(** A first sink that accepts nothing and a second one that fails: both
    are written to, and the error of the second is what is reported. *)
Lemma WriteFunc_Compose_writes_both_witness :
  WriteFunc.Compose (WriteFunc.logged 0 (refusing 7))
                    (WriteFunc.logged 1 (failing 8 "disk full")) hi ([], [])
  = Return (0, errors_New "disk full")
      ([(0%nat, hi); (1%nat, hi)], [(7%nat, hi); (8%nat, hi)]).
Proof.
  apply (WriteFunc_Compose_writes_both (refusing 7) (failing 8 "disk full")
           hi [] [] (0, ErrNil) [(7%nat, hi)]
           (0, errors_New "disk full") [(7%nat, hi); (8%nat, hi)]
           eq_refl eq_refl).
Defined.

(** ** Sources: Map *)

Lemma copy_same_length (dst src : list byte) :
  (length src <= length dst)%nat -> copy dst src = src ++ drop (length src) dst.
Proof. intros H. unfold copy. now rewrite take_ge. Qed.

Lemma Map_not_positive {W} (f : ReadFunc.t W) transform p w n err p1 w1 :
  f p w = Return (n, err, p1) w1 ->
  n <= 0 ->
  ReadFunc.Map f transform p w = Return (n, err, p1) w1.
Proof.
  intros Hf Hn. unfold ReadFunc.Map. rewrite (bind_Return _ _ _ _ _ Hf).
  case_decide; [lia | reflexivity].
Qed.

Lemma Map_positive {W} (f : ReadFunc.t W) transform p w n err p1 w1 s w2 :
  f p w = Return (n, err, p1) w1 ->
  0 < n <= len p1 ->
  transform (take (Z.to_nat n) p1) w1 = Return s w2 ->
  ReadFunc.Map f transform p w = Return (n, err, copy p1 s) w2.
Proof.
  intros Hf Hn Ht. unfold ReadFunc.Map. rewrite (bind_Return _ _ _ _ _ Hf).
  case_decide; [|lia].
  unfold slice_to. case_decide; [|lia].
  unfold bind at 1. unfold ret at 1.
  now rewrite (bind_Return _ _ _ _ _ Ht).
Qed.

(** C2, as stated, fails: a read that returns one or more bytes together
    with a failure has those bytes transformed. *)
Lemma C2_transform_runs_on_failure : ~ failure_skips_transform.
Proof.
  intros H.
  specialize (H nat broken_pipe counting_ToUpper (make 4) 0%nat
                2 (errors_New "broken pipe") (copy (make 4) hi) 0%nat
                eq_refl eq_refl).
  vm_compute in H. discriminate H.
Qed.

(** C2, amended: the count and the status of the underlying read always
    pass through untouched.  The transform is invoked exactly when the
    count is positive, whatever the status: a read with no bytes, failed
    or not, is returned as it is without invoking the transform, and a
    read with n > 0 bytes has them replaced by the transform of p[:n].
    For a length-preserving transform t and a count within the buffer,
    the bytes returned are t applied to the bytes of the untransformed
    read, with identical count and status. *)
Theorem ReadFunc_Map_transforms_read_bytes {W} (f : ReadFunc.t W)
    (transform : list byte -> M W (list byte)) (t : list byte -> list byte)
    p w n err p1 w1 :
  f p w = Return (n, err, p1) w1 ->
  (n <= 0 -> ReadFunc.Map f transform p w = Return (n, err, p1) w1)
  /\ (0 < n <= len p1 -> forall s w2,
        transform (take (Z.to_nat n) p1) w1 = Return s w2 ->
        ReadFunc.Map f transform p w = Return (n, err, copy p1 s) w2)
  /\ ((forall x, length (t x) = length x) -> 0 <= n <= len p1 ->
        exists p2,
          ReadFunc.Map f (fun x => ret (t x)) p w = Return (n, err, p2) w1
          /\ take (Z.to_nat n) p2 = t (take (Z.to_nat n) p1)
          /\ drop (Z.to_nat n) p2 = drop (Z.to_nat n) p1).
Proof.
  intros Hf. split; [|split].
  - now apply Map_not_positive.
  - intros Hn s w2 Ht. now apply Map_positive with (w1 := w1).
  - intros Hlen Hn. unfold len in Hn.
    destruct (decide (n = 0)) as [->|Hnz].
    + exists p1. split; [now apply Map_not_positive|].
      simpl. split; [|reflexivity].
      rewrite take_0. symmetry. apply nil_length_inv. now rewrite Hlen.
    + exists (copy p1 (t (take (Z.to_nat n) p1))).
      assert (Hl : length (t (take (Z.to_nat n) p1)) = Z.to_nat n)
        by (rewrite Hlen, length_take; lia).
      split; [apply Map_positive with (w1 := w1);
                [assumption|unfold len; lia|reflexivity]|].
      rewrite copy_same_length by lia. rewrite Hl. split.
      * now rewrite take_app_length' by congruence.
      * now rewrite drop_app_length' by congruence.
Qed.

(** The source that copies "hello world" and reports EOF, mapped with
    ToUpper and read into 100 bytes: 11 bytes, "HELLO WORLD", EOF. *)
Lemma ReadFunc_Map_transforms_read_bytes_witness :
  exists p2,
    ReadFunc.Map hello_world (fun x => ret (ToUpper x)) (make 100) tt
      = Return (11, EOF, p2) tt
    /\ take 11 p2 = bytes "HELLO WORLD".
Proof.
  destruct (ReadFunc_Map_transforms_read_bytes hello_world
              (fun x => ret (ToUpper x)) ToUpper (make 100) tt
              11 EOF (copy (make 100) (bytes "hello world")) tt eq_refl)
    as (_ & _ & H).
  destruct (H (fun x => length_fmap upper x) ltac:(vm_compute; split; discriminate))
    as (p2 & Hmap & Htake & _).
  exists p2. split; [exact Hmap|]. exact Htake.
Defined.

(** ** Sources: Take *)

Lemma total_end_of_stream ps : total (end_of_stream ps) = 0.
Proof. induction ps as [|p ps IH]; [reflexivity|exact IH]. Qed.

Section Take.
Context {W : Type}.
Variable f : ReadFunc.t W.
Variable limit : Z.

Let T := ReadFunc.Take f limit.

Lemma Take_exhausted p r w :
  r <= 0 -> code T p (r, w) = Return (0, EOF, p) (r, w).
Proof.
  intros Hr. simpl. unfold bind, load; simpl.
  case_decide; [reflexivity|lia].
Qed.

Lemma Take_exhausted_reads ps r w :
  r <= 0 ->
  ReadFunc.reads (code T) ps (r, w) = Return (end_of_stream ps) (r, w).
Proof.
  intros Hr. induction ps as [|p ps IH]; [reflexivity|].
  cbn [ReadFunc.reads].
  rewrite (bind_Return _ _ _ _ _ (Take_exhausted p r w Hr)).
  now rewrite (bind_Return _ _ _ _ _ IH).
Qed.

Hypothesis Hf : obeys_contract f.

Lemma Take_within_budget p r w :
  0 < r < 2 ^ 63 ->
  exists n err p' w',
    code T p (r, w) = Return (n, err, p') (r - n, w') /\ 0 <= n <= r.
Proof using Hf.
  intros Hr. simpl. unfold bind at 1, load; simpl.
  case_decide; [lia|].
  set (q := if decide (r < len p) then take (Z.to_nat r) p else p).
  assert (Hq : len q <= r).
  { subst q. unfold len. case_decide; [rewrite length_take|]; unfold len in *; lia. }
  destruct (Hf q w) as (n & err & q' & w' & Hcall & Hn).
  exists n, err, (copy p q'), w'.
  rewrite (bind_Return _ _ _ _ _ (call_Return _ r _ _ _ Hcall)).
  unfold bind, store, ret; simpl.
  split; [|lia]. do 2 f_equal.
  unfold wrap64. rewrite Z.mod_small; lia.
Qed.

(** The captured counter is the initial budget less the bytes returned,
    and it does not cross zero. *)
Lemma Take_reads ps : forall r w,
  - 2 ^ 63 <= r < 2 ^ 63 ->
  exists rs w',
    ReadFunc.reads (code T) ps (r, w) = Return rs (r - total rs, w')
    /\ 0 <= total rs
    /\ (0 <= r -> total rs <= r).
Proof using Hf.
  induction ps as [|p ps IH]; intros r w Hr.
  - exists [], w. simpl. unfold ret. rewrite Z.sub_0_r. repeat split; lia.
  - destruct (decide (r <= 0)) as [Hle|Hgt].
    + exists (end_of_stream (p :: ps)), w.
      rewrite total_end_of_stream, Z.sub_0_r. split; [|lia].
      now apply Take_exhausted_reads.
    + destruct (Take_within_budget p r w ltac:(lia))
        as (n & err & p' & w1 & Hstep & Hn).
      destruct (IH (r - n) w1 ltac:(lia)) as (rs & w2 & Hrest & Hpos & Hle).
      exists ((n, err, p') :: rs), w2.
      cbn [ReadFunc.reads].
      rewrite (bind_Return _ _ _ _ _ Hstep).
      rewrite (bind_Return _ _ _ _ _ Hrest).
      unfold ret, total; simpl. fold (total rs).
      replace (r - (n + total rs)) with (r - n - total rs) by lia.
      repeat split; lia.
Qed.
End Take.

Lemma counted_obeys_contract {W} (f : ReadFunc.t W) :
  obeys_contract f -> obeys_contract (ReadFunc.counted f).
Proof.
  intros Hf p [l w]. destruct (Hf p w) as (n & err & p' & w' & Hcall & Hn).
  exists n, err, p', (l ++ [tt], w'). split; [|assumption].
  unfold ReadFunc.counted. now apply observe_Return.
Qed.

(** C3: over a source that obeys the contract, any sequence of reads
    from one adapter made by Take(limit) returns, and for a byte budget
    limit >= 0 it returns at most limit bytes in total; once the total
    has reached limit, every further read returns (0, EOF) with neither
    the buffer nor the world changed, the log of the calls of the
    wrapped source included: the source is not invoked. *)
Theorem ReadFunc_Take_budget {W} (f : ReadFunc.t W) (limit : Z)
    (ps : list (list byte)) (w : W) :
  - 2 ^ 63 <= limit < 2 ^ 63 ->
  obeys_contract f ->
  let T := ReadFunc.Take (ReadFunc.counted f) limit in
  exists rs st,
    ReadFunc.reads (code T) ps (start T ([], w)) = Return rs st
    /\ (0 <= limit -> total rs <= limit)
    /\ (limit <= total rs ->
        forall ps', ReadFunc.reads (code T) ps' st
                    = Return (end_of_stream ps') st).
Proof.
  intros Hrange Hf T.
  destruct (Take_reads (ReadFunc.counted f) limit (counted_obeys_contract f Hf)
              ps limit ([], w) Hrange) as (rs & w' & Hreads & Htot & Hle).
  exists rs, (limit - total rs, w'). split; [exact Hreads|].
  split; [exact Hle|].
  intros Hreached ps'. apply Take_exhausted_reads. lia.
Qed.

Lemma hello_world_obeys_contract {W} : obeys_contract (@hello_world W).
Proof.
  intros p w. eexists _, _, _, _. split; [reflexivity|].
  unfold copied, len. lia.
Qed.

(** Take(5) of the "hello world" source, read twice into 100 bytes: 5
    bytes in all, and only (0, EOF) from then on. *)
Lemma ReadFunc_Take_budget_witness :
  let T := ReadFunc.Take (ReadFunc.counted hello_world) 5 in
  exists rs st,
    ReadFunc.reads (code T) [make 100; make 100] (start T ([], tt))
      = Return rs st
    /\ total rs <= 5
    /\ forall ps', ReadFunc.reads (code T) ps' st = Return (end_of_stream ps') st.
Proof.
  intros T.
  destruct (ReadFunc_Take_budget hello_world 5 [make 100; make 100] tt
              ltac:(lia) hello_world_obeys_contract)
    as (rs & st & Hreads & Hle & Hdone).
  exists rs, st. split; [exact Hreads|]. split; [apply Hle; lia|].
  apply Hdone.
  assert (E : Return rs st
              = Return [(5, EOF, copy (make 100) (take 5 (bytes "hello world")));
                        (0, EOF, make 100)] (0, ([tt], tt)))
    by (rewrite <- Hreads; vm_compute; reflexivity).
  injection E as -> ->. vm_compute. discriminate.
Defined.

(** ** Sources: Retry *)

Section Retry.
Context {W : Type}.
Variable f : ReadFunc.t W.

Lemma retry_loop_failures j : forall e0 p w e p' w' m l,
  fails_in_a_row f j e0 p w e p' w' ->
  ReadFunc.retry_loop (ReadFunc.counted f) (j + m) e0 p (l, w)
  = ReadFunc.retry_loop (ReadFunc.counted f) m e p' (l ++ replicate j tt, w').
Proof.
  induction j as [|j IH]; intros e0 p w e p' w' m l Hfails;
    inversion Hfails; subst.
  - simpl. now rewrite app_nil_r.
  - cbn [Nat.add ReadFunc.retry_loop].
    match goal with
    | H : f p w = _ |- _ =>
        rewrite (bind_Return _ _ _ _ _ (observe_Return tt _ l _ _ _ H))
    end.
    match goal with
    | H : is_failure err = true |- _ =>
        unfold is_failure in H; apply bool_decide_eq_true in H
    end.
    case_decide; [tauto|].
    erewrite IH by eassumption.
    now rewrite <- app_assoc.
Qed.

Lemma retry_loop_success m e0 p l w n err p' w' :
  f p w = Return (n, err, p') w' ->
  is_failure err = false ->
  ReadFunc.retry_loop (ReadFunc.counted f) (S m) e0 p (l, w)
  = Return (n, err, p') (l ++ [tt], w').
Proof.
  intros Hcall Hok. cbn [ReadFunc.retry_loop].
  rewrite (bind_Return _ _ _ _ _ (observe_Return tt _ l _ _ _ Hcall)).
  unfold is_failure in Hok. apply bool_decide_eq_false in Hok.
  case_decide; [reflexivity|].
  exfalso. apply Hok. split; intros ->; tauto.
Qed.

Lemma always_fails_in_a_row :
  always_fails f ->
  forall j e0 p w, exists e p' w', fails_in_a_row f j e0 p w e p' w'.
Proof.
  intros Hf. induction j as [|j IH]; intros e0 p w.
  - exists e0, p, w. constructor.
  - destruct (Hf p w) as (n & err & p1 & w1 & Hcall & Hfail).
    destruct (IH err p1 w1) as (e & p' & w' & Hrest).
    exists e, p', w'. econstructor; eassumption.
Qed.
End Retry.

(** C4: one call of Retry(k), for k >= 0 below the largest int (2^63 - 1,
    int being 64 bits wide), so that the counter of the loop does not
    wrap around.  If the wrapped source returns a failure status j <= k
    times and then a success or an end-of-stream, the call returns that
    result after exactly j+1 invocations of the source: with j = k this
    is the source that fails exactly k times, and with j = 0 a success or
    an end-of-stream is not retried.  If the source always fails, the
    call makes exactly k+1 invocations and returns the error of the last
    of them. *)
Theorem ReadFunc_Retry_invocations {W} (f : ReadFunc.t W) (k : Z)
    (p : list byte) (l : list unit) (w : W) :
  0 <= k < 2 ^ 63 - 1 ->
  (forall j e p1 w1 n err p2 w2,
      (j <= Z.to_nat k)%nat ->
      fails_in_a_row f j ErrNil p w e p1 w1 ->
      f p1 w1 = Return (n, err, p2) w2 ->
      is_failure err = false ->
      ReadFunc.Retry (ReadFunc.counted f) k p (l, w)
      = Return (n, err, p2) (l ++ replicate (S j) tt, w2))
  /\ (always_fails f ->
      exists e p' w',
        fails_in_a_row f (S (Z.to_nat k)) ErrNil p w e p' w'
        /\ ReadFunc.Retry (ReadFunc.counted f) k p (l, w)
           = Return (0, e, p') (l ++ replicate (S (Z.to_nat k)) tt, w')).
Proof.
  intros Hk. unfold ReadFunc.Retry.
  replace (Z.to_nat (k + 1)) with (S (Z.to_nat k)) by lia.
  split.
  - intros j e p1 w1 n err p2 w2 Hj Hfails Hcall Hok.
    replace (S (Z.to_nat k)) with (j + S (Z.to_nat k - j))%nat by lia.
    rewrite (retry_loop_failures f j _ _ _ _ _ _ _ l Hfails).
    rewrite (retry_loop_success f _ _ _ _ _ _ _ _ _ Hcall Hok).
    rewrite <- app_assoc.
    change [tt] with (replicate 1 tt). rewrite <- replicate_add.
    now replace (j + 1)%nat with (S j) by lia.
  - intros Hf.
    destruct (always_fails_in_a_row f Hf (S (Z.to_nat k)) ErrNil p w)
      as (e & p' & w' & Hfails).
    exists e, p', w'. split; [exact Hfails|].
    replace (S (Z.to_nat k)) with (S (Z.to_nat k) + 0)%nat at 1 by lia.
    now rewrite (retry_loop_failures f _ _ _ _ _ _ _ _ l Hfails).
Qed.

Lemma persistent_always_fails : always_fails persistent.
Proof. intros p w. eexists _, _, _, _. split; reflexivity. Qed.

(** Retry(2) of a source that fails twice and then succeeds, and of one
    that always fails: three invocations each. *)
Lemma ReadFunc_Retry_invocations_witness :
  ReadFunc.Retry (ReadFunc.counted flaky) 2 (make 10) ([], 0%nat)
  = Return (7, EOF, copy (make 10) (bytes "success")) ([tt; tt; tt], 3%nat)
  /\ ReadFunc.Retry (ReadFunc.counted persistent) 2 (make 10) ([], 0%nat)
     = Return (0, errors_New "persistent error", make 10) ([tt; tt; tt], 3%nat).
Proof.
  split.
  - apply (proj1 (ReadFunc_Retry_invocations flaky 2 (make 10) [] 0%nat
                    ltac:(lia))
             2%nat (errors_New "transient error") (make 10) 2%nat
             7 EOF (copy (make 10) (bytes "success")) 3%nat).
    + simpl. lia.
    + eapply fails_S; [reflexivity|reflexivity|].
      eapply fails_S; [reflexivity|reflexivity|].
      apply fails_O.
    + reflexivity.
    + reflexivity.
  - destruct (proj2 (ReadFunc_Retry_invocations persistent 2 (make 10) [] 0%nat
                       ltac:(lia)) persistent_always_fails)
      as (e & p' & w' & _ & Hret).
    rewrite Hret.
    assert (E : Return (0, e, p') ([] ++ replicate (S (Z.to_nat 2)) tt, w')
                = Return (0, errors_New "persistent error", make 10)
                    ([tt; tt; tt], 3%nat))
      by (rewrite <- Hret; reflexivity).
    exact E.
Defined.

(** ** Sinks: Tee *)

Section Tee.
Context {W : Type}.
Implicit Types (ws : list (WriteFunc.t W)) (p : list byte).

Lemma tee_loop_all_succeed p ws : forall w w' rest i l,
  writes_all p ws w w' ->
  WriteFunc.tee_loop (logged_from i (ws ++ rest)) p (l, w)
  = WriteFunc.tee_loop (logged_from (i + length ws) rest) p
      (l ++ handed p i (length ws), w').
Proof.
  induction ws as [|s ws IH]; intros w w' rest i l Hall;
    inversion Hall; subst.
  - simpl. unfold handed. simpl. rewrite app_nil_r, Nat.add_0_r. reflexivity.
  - unfold logged_from. cbn [app imap WriteFunc.tee_loop].
    match goal with
    | H : s p w = _ |- _ =>
        rewrite (bind_Return _ _ _ _ _
                   (observe_Return (i + 0, p)%nat _ l _ _ _ H))
    end.
    do 2 (case_decide; [congruence|]).
    rewrite (imap_ext _ (fun j => WriteFunc.logged (S i + j)) (ws ++ rest))
      by (intros; unfold compose; f_equal; lia).
    fold (logged_from (S i) (ws ++ rest)).
    erewrite IH by eassumption.
    unfold handed. cbn [length seq fmap list_fmap].
    rewrite <- app_assoc. simpl.
    rewrite Nat.add_0_r, Nat.add_succ_r. reflexivity.
Qed.
End Tee.

Lemma handed_S p i k : handed p i (S k) = handed p i k ++ [((i + k)%nat, p)].
Proof. unfold handed. now rewrite seq_S, fmap_app. Qed.

Lemma Tee_logged {W} (f : WriteFunc.t W) others p :
  WriteFunc.Tee (WriteFunc.logged 0 f) (logged_from 1 others) p
  = WriteFunc.tee_loop (logged_from 0 (f :: others)) p.
Proof. reflexivity. Qed.

(** C5: Tee hands the identical buffer to the original sink and to the
    additional sinks, in the order of the list.  When every sink accepts
    the whole buffer, the result is (len(p), nil) and each sink has been
    handed p, once.  When the sinks before some sink accept the whole
    buffer and that sink returns an error or a count other than len(p),
    its count is returned, with its error or else with the short-write
    status, and the sinks after it have not been handed anything. *)
Theorem WriteFunc_Tee_fail_fast {W} (f : WriteFunc.t W)
    (others : list (WriteFunc.t W)) (p : list byte)
    (l : list (nat * list byte)) (w : W) :
  let tee := WriteFunc.Tee (WriteFunc.logged 0 f) (logged_from 1 others) in
  (forall w',
      writes_all p (f :: others) w w' ->
      tee p (l, w)
      = Return (len p, ErrNil) (l ++ handed p 0 (S (length others)), w'))
  /\ (forall pre s post w1 r w2,
        f :: others = pre ++ s :: post ->
        writes_all p pre w w1 ->
        s p w1 = Return r w2 ->
        r.2 <> ErrNil \/ r.1 <> len p ->
        tee p (l, w)
        = Return (tee_failure r) (l ++ handed p 0 (S (length pre)), w2)).
Proof.
  intros tee. subst tee. rewrite Tee_logged. split.
  - intros w' Hall.
    rewrite <- (app_nil_r (f :: others)).
    rewrite (tee_loop_all_succeed p _ w w' [] 0 l Hall).
    reflexivity.
  - intros pre s post w1 [n err] w2 -> Hpre Hs Hbad.
    rewrite (tee_loop_all_succeed p _ w w1 (s :: post) 0 l Hpre).
    unfold logged_from. cbn [imap WriteFunc.tee_loop].
    rewrite (bind_Return _ _ _ _ _
               (observe_Return (0 + length pre + 0, p)%nat _ _ _ _ _ Hs)).
    rewrite handed_S, app_assoc, Nat.add_0_r.
    unfold tee_failure. simpl in *.
    case_decide; [reflexivity|].
    case_decide; [reflexivity|].
    destruct Hbad; congruence.
Qed.

(** Three sinks that accept "hi"; and the same with a second sink that
    accepts nothing, after which the third is not written to. *)
Lemma WriteFunc_Tee_fail_fast_witness :
  WriteFunc.Tee (WriteFunc.logged 0 (accepting 10))
    (logged_from 1 [accepting 11; accepting 12]) hi ([], [])
  = Return (2, ErrNil)
      ([(0, hi); (1, hi); (2, hi)], [(10, hi); (11, hi); (12, hi)])%nat
  /\ WriteFunc.Tee (WriteFunc.logged 0 (accepting 10))
       (logged_from 1 [refusing 11; accepting 12]) hi ([], [])
     = Return (0, ErrShortWrite) ([(0, hi); (1, hi)], [(10, hi); (11, hi)])%nat.
Proof.
  split.
  - apply (proj1 (WriteFunc_Tee_fail_fast (accepting 10)
                    [accepting 11; accepting 12] hi [] [])
             [(10, hi); (11, hi); (12, hi)]%nat).
    repeat (eapply writes_all_cons; [reflexivity|]). apply writes_all_nil.
  - apply (proj2 (WriteFunc_Tee_fail_fast (accepting 10)
                    [refusing 11; accepting 12] hi [] [])
             [accepting 10] (refusing 11) [accepting 12]
             [(10, hi)]%nat (0, ErrNil) [(10, hi); (11, hi)]%nat).
    + reflexivity.
    + eapply writes_all_cons; [reflexivity|]. apply writes_all_nil.
    + reflexivity.
    + right. vm_compute. discriminate.
Defined.

(** ** Sinks: Map and Filter *)

Lemma filter_loop_pure {W} (predicate : byte -> bool) p :
  forall filtered (w : W),
    WriteFunc.filter_loop (fun b => ret (predicate b)) p filtered w
    = Return (filtered ++ List.filter predicate p) w.
Proof.
  induction p as [|b p IH]; intros filtered w.
  - simpl. now rewrite app_nil_r.
  - cbn [WriteFunc.filter_loop List.filter]. unfold bind at 1, ret at 1.
    rewrite IH. destruct (predicate b); [|reflexivity].
    now rewrite <- app_assoc.
Qed.

(** C6: when the write they delegate to reports no error, Map and Filter
    report the length of their input, whatever the length of the
    transformed or filtered buffer and whatever count the delegate
    returned; when it reports an error, they return its count and error
    unchanged. *)
Theorem WriteFunc_Map_Filter_report_input_length {W} (f : WriteFunc.t W)
    (transform : list byte -> M W (list byte)) (predicate : byte -> bool)
    (p : list byte) (w : W) :
  (forall s w1 r w2,
      transform p w = Return s w1 ->
      f s w1 = Return r w2 ->
      WriteFunc.Map f transform p w = Return (reported p r) w2)
  /\ (forall r w2,
        f (List.filter predicate p) w = Return r w2 ->
        WriteFunc.Filter f (fun b => ret (predicate b)) p w
        = Return (reported p r) w2).
Proof.
  split.
  - intros s w1 [n err] w2 Ht Hf. unfold WriteFunc.Map.
    rewrite (bind_Return _ _ _ _ _ Ht), (bind_Return _ _ _ _ _ Hf).
    unfold reported, ret; simpl. repeat case_decide; congruence.
  - intros [n err] w2 Hf. unfold WriteFunc.Filter.
    rewrite (bind_Return _ _ _ _ _ (filter_loop_pure predicate p [] w)).
    simpl. rewrite (bind_Return _ _ _ _ _ Hf).
    unfold reported, ret; simpl. repeat case_decide; congruence.
Qed.

(** "hi" doubled by Map and "a1" filtered to "a": both report 2; a
    failing delegate has its result returned. *)
Lemma WriteFunc_Map_Filter_report_input_length_witness :
  WriteFunc.Map (accepting 0) twice hi []
  = Return (2, ErrNil) [(0%nat, hi ++ hi)]
  /\ WriteFunc.Filter (accepting 0) (fun b => ret (is_lower b)) a1 []
     = Return (2, ErrNil) [(0%nat, [Byte.x61])]
  /\ WriteFunc.Map (failing 0 "disk full") twice hi []
     = Return (0, errors_New "disk full") [(0%nat, hi ++ hi)].
Proof.
  split; [|split].
  - apply (proj1 (WriteFunc_Map_Filter_report_input_length
                    (accepting 0) twice is_lower hi [])
             (hi ++ hi) [] (4, ErrNil) [(0%nat, hi ++ hi)] eq_refl eq_refl).
  - apply (proj2 (WriteFunc_Map_Filter_report_input_length
                    (accepting 0) twice is_lower a1 [])
             (1, ErrNil) [(0%nat, [Byte.x61])] eq_refl).
  - apply (proj1 (WriteFunc_Map_Filter_report_input_length
                    (failing 0 "disk full") twice is_lower hi [])
             (hi ++ hi) [] (0, errors_New "disk full") [(0%nat, hi ++ hi)]
             eq_refl eq_refl).
Defined.

(** ** Identity of composition *)

Section ComposeEmpty.
Context {W : Type}.

Lemma ReadFunc_Compose_Empty_step (g X : ReadFunc.t W) p b w :
  code (ReadFunc.Compose (ReadFunc.Empty g) X) p (b, w)
  = call (X p) (true, w).
Proof.
  destruct b; simpl; unfold bind, load, call; simpl; destruct (X p w);
    reflexivity.
Qed.

Lemma ReadFunc_Compose_Empty_reads (g X : ReadFunc.t W) ps : forall b w,
  agrees (ReadFunc.reads X ps w)
    (ReadFunc.reads (code (ReadFunc.Compose (ReadFunc.Empty g) X)) ps (b, w)).
Proof.
  induction ps as [|p ps IH]; intros b w.
  - simpl. now exists b.
  - cbn [ReadFunc.reads].
    destruct (X p w) as [r w1|] eqn:HX.
    + rewrite (bind_Return _ _ _ _ _ HX).
      rewrite (bind_Return _ _ (b, w) r (true, w1))
        by (etrans; [apply ReadFunc_Compose_Empty_step|now apply call_Return]).
      specialize (IH true w1).
      destruct (ReadFunc.reads X ps w1) as [rs w2|] eqn:HR.
      * destruct IH as [s IH].
        rewrite (bind_Return _ _ _ _ _ HR), (bind_Return _ _ _ _ _ IH).
        now exists s.
      * simpl in IH.
        now rewrite (bind_Panic _ _ _ HR), (bind_Panic _ _ _ IH).
    + rewrite (bind_Panic _ _ _ HX). simpl.
      apply bind_Panic.
      etrans; [apply ReadFunc_Compose_Empty_step|now apply call_Panic].
Qed.
End ComposeEmpty.

(** C7: composing the empty adapter with X gives an adapter that behaves
    as X: for sources, any sequence of reads from the freshly composed
    adapter has the outcome (results, buffers and world) of the same
    reads from X; for sinks and stringers every call has the outcome of
    the call of X. *)
Theorem Compose_Empty_left_identity {W} :
  (forall (g X : ReadFunc.t W) ps w,
      let C := ReadFunc.Compose (ReadFunc.Empty g) X in
      agrees (ReadFunc.reads X ps w) (ReadFunc.reads (code C) ps (start C w)))
  /\ (forall (g X : WriteFunc.t W) p w,
        WriteFunc.Compose (WriteFunc.Empty g) X p w = X p w)
  /\ (forall (g X : StringerFunc.t W) w,
        StringerFunc.Compose (StringerFunc.Empty g) X w = X w).
Proof.
  split; [|split].
  - intros g X ps w C. apply ReadFunc_Compose_Empty_reads.
  - intros g X p w. unfold WriteFunc.Compose, WriteFunc.Empty.
    unfold bind at 1, ret at 1. unfold bind.
    destruct (X p w) as [[n2 err2] w2|]; [|reflexivity].
    repeat case_decide; try congruence; try reflexivity.
    unfold ret. congruence.
  - intros g X w. unfold StringerFunc.Compose, StringerFunc.Empty.
    unfold bind, ret. destruct (X w); reflexivity.
Qed.

(** ** Sources: sequential composition *)

(** C10: when the first reader returns n > 0 bytes together with EOF, the
    composed reader sets its exhausted flag and calls next on the same
    buffer, as the first reader left it; what it returns is the count,
    the status and the buffer of next, so the n bytes are not reported
    to the caller.  From then on every read goes to next alone. *)
Theorem ReadFunc_Compose_drops_final_read {W} (f next : ReadFunc.t W)
    (p : list byte) (w : W) (n : Z) (p1 : list byte) (w1 : W) :
  f p w = Return (n, EOF, p1) w1 ->
  0 < n ->
  let C := ReadFunc.Compose f next in
  code C p (start C w) = call (next p1) (true, w1)
  /\ (forall r w2, next p1 w1 = Return r w2 ->
        code C p (start C w) = Return r (true, w2))
  /\ (forall p' w', code C p' (true, w') = call (next p') (true, w')).
Proof.
  intros Hf Hn C.
  assert (Hstep : code C p (start C w) = call (next p1) (true, w1)).
  { simpl. unfold bind at 1, load; simpl.
    rewrite (bind_Return _ _ _ _ _ (call_Return _ false _ _ _ Hf)).
    case_decide; [|congruence]. reflexivity. }
  split; [exact Hstep|]. split.
  - intros r w2 Hnext. rewrite Hstep. now apply call_Return.
  - intros p' w'. reflexivity.
Qed.

(** "hello world" with EOF, then "hi": the first read of the composed
    reader reports the 2 bytes of the second source. *)
Lemma ReadFunc_Compose_drops_final_read_witness :
  let C := ReadFunc.Compose hello_world says_hi in
  code C (make 16) (start C tt)
  = Return (2, ErrNil, copy (copy (make 16) (bytes "hello world")) hi)
      (true, tt).
Proof.
  intros C.
  apply (proj1 (proj2 (ReadFunc_Compose_drops_final_read hello_world says_hi
                         (make 16) tt 11
                         (copy (make 16) (bytes "hello world")) tt
                         eq_refl ltac:(lia)))).
  reflexivity.
Defined.

(** ** Handlers: WithAuth *)

(** C8: WithAuth first asks the predicate.  When the predicate rejects
    the request, the response is what http.Error makes of the response
    writer for the message "Unauthorized" and the status 401, and the
    wrapped handler takes no part in it; when the predicate accepts, the
    call is the call of the wrapped handler. *)
Theorem HandlerFunc_WithAuth_gate {W}
    (http_Error : http.ResponseWriter W -> string -> Z -> M W unit)
    (f : HandlerFunc.t W) (authenticate : http.Request -> M W bool)
    (w : http.ResponseWriter W) (r : http.Request) (s s1 : W) (ok : bool) :
  authenticate r s = Return ok s1 ->
  HandlerFunc.WithAuth http_Error f authenticate w r s
  = if ok then f w r s1 else http_Error w "Unauthorized"%string 401 s1.
Proof.
  intros Hauth. unfold HandlerFunc.WithAuth.
  rewrite (bind_Return _ _ _ _ _ Hauth). destruct ok; reflexivity.
Qed.

(** The bearer check of the tests: without the header, 401 and the
    "Unauthorized" line; with it, the response of the wrapped handler. *)
Lemma HandlerFunc_WithAuth_gate_witness :
  let handler := HandlerFunc.WithAuth http.Error respond_OK bearer_secret in
  (exists headers,
      handler http.recorder anonymous http.NewRecorder
      = Return tt {| http.Code := 401; http.HeaderMap := headers;
                     http.Body := bytes ("Unauthorized" +:+ http.LF);
                     http.wroteHeader := true |})
  /\ handler http.recorder
       with_bearer_secret
       http.NewRecorder
     = respond_OK http.recorder
         with_bearer_secret
         http.NewRecorder.
Proof.
  intros handler. split.
  - eexists. subst handler.
    rewrite (HandlerFunc_WithAuth_gate http.Error respond_OK bearer_secret
               http.recorder anonymous http.NewRecorder http.NewRecorder
               false ltac:(vm_compute; reflexivity)).
    reflexivity.
  - subst handler.
    rewrite (HandlerFunc_WithAuth_gate http.Error respond_OK bearer_secret
               http.recorder
               with_bearer_secret
               http.NewRecorder http.NewRecorder true
               ltac:(vm_compute; reflexivity)).
    reflexivity.
Defined.

(** ** Handlers: WithTimeout *)

(** The test of the package: the handler sleeps past the deadline, its
    WriteHeader is then dropped by the guarded writer, and the timeout
    path answers 408. *)
Example WithTimeout_sleeping_handler :
  HandlerFunc.WithTimeout clock_Done sleeps_then_responds 50
    timed_recorder anonymous (0, ([], http.NewRecorder))
  = Return tt
      (100,
       ([http.CallWriteHeader 408;
         http.CallWrite (bytes ("Request timeout" +:+ http.LF))],
        {| http.Code := 408; http.HeaderMap := ∅;
           http.Body := bytes ("Request timeout" +:+ http.LF);
           http.wroteHeader := true |})).
Proof. vm_compute. reflexivity. Qed.

(** Once timedOut is set, the guarded writer refuses a Write with
    ErrHandlerTimeout and leaves the embedded writer alone. *)
Lemma timeoutWriter_Write_after_timeout {W} (w : http.ResponseWriter W)
    (b : list byte) (wrote : bool) (s : W) :
  HandlerFunc.timeoutWriter_Write w b
    ({| HandlerFunc.timedOut := 1; HandlerFunc.wroteHeader := wrote |}, s)
  = Return (0, ErrHandlerTimeout)
      ({| HandlerFunc.timedOut := 1; HandlerFunc.wroteHeader := wrote |}, s).
Proof. reflexivity. Qed.

(** A Write of the handler before the deadline goes to the embedded
    writer and leaves wroteHeader as it was. *)
Lemma timeoutWriter_Write_keeps_wroteHeader {W} (w : http.ResponseWriter W)
    (b : list byte) (wrote : bool) (s s' : W) (r : Z * error) :
  http.Write w b s = Return r s' ->
  HandlerFunc.timeoutWriter_Write w b
    ({| HandlerFunc.timedOut := 0; HandlerFunc.wroteHeader := wrote |}, s)
  = Return r
      ({| HandlerFunc.timedOut := 0; HandlerFunc.wroteHeader := wrote |}, s').
Proof.
  intros Hw. unfold HandlerFunc.timeoutWriter_Write.
  unfold bind at 1, load; simpl. now apply call_Return.
Qed.

Section WithTimeout.
Context {W : Type}.
Variable ctx_Done : Z -> W -> W -> bool.
Variable f : HandlerFunc.t (HandlerFunc.timeoutWriter * W).
Variables (timeout : Z) (w : http.ResponseWriter W) (r : http.Request).

(** The handler finishes first: the branch of done is taken and the
    response is as the handler left it. *)
Lemma WithTimeout_handler_first w0 tw w' :
  f (HandlerFunc.guarded ctx_Done timeout w0 w) r
    ({| HandlerFunc.timedOut := 0; HandlerFunc.wroteHeader := false |}, w0)
  = Return tt (tw, w') ->
  HandlerFunc.timedOut tw = 0 ->
  ctx_Done timeout w0 w' = false ->
  HandlerFunc.WithTimeout ctx_Done f timeout w r w0 = Return tt w'.
Proof.
  intros Hf Hflag Hdone. unfold HandlerFunc.WithTimeout, scoped.
  rewrite (bind_Return _ _ _ _ _ Hf).
  destruct tw as [flag wrote]; simpl in Hflag; subst flag.
  unfold HandlerFunc.select_ctx_Done, bind, load, call, store, ret; simpl.
  now rewrite Hdone.
Qed.

(** The deadline comes first: after the handler has returned, the
    timeout path writes the 408 response or not according to wroteHeader
    alone. *)
Lemma WithTimeout_deadline_first w0 tw w' :
  f (HandlerFunc.guarded ctx_Done timeout w0 w) r
    ({| HandlerFunc.timedOut := 0; HandlerFunc.wroteHeader := false |}, w0)
  = Return tt (tw, w') ->
  HandlerFunc.timedOut tw = 1 \/ ctx_Done timeout w0 w' = true ->
  HandlerFunc.WithTimeout ctx_Done f timeout w r w0
  = if HandlerFunc.wroteHeader tw then Return tt w'
    else (http.WriteHeader w http.StatusRequestTimeout;;;
          let* _ := http.Write w (bytes ("Request timeout" +:+ http.LF)) in
          ret tt) w'.
Proof.
  intros Hf Hfired. unfold HandlerFunc.WithTimeout, scoped.
  rewrite (bind_Return _ _ _ _ _ Hf).
  unfold HandlerFunc.select_ctx_Done, bind, load, call, store, ret; simpl.
  destruct tw as [flag wrote]; simpl in *.
  destruct (ctx_Done timeout w0 w') eqn:Hdone; simpl.
  - destruct wrote; simpl; [reflexivity|].
    destruct (http.WriteHeader w http.StatusRequestTimeout w'); [|reflexivity].
    simpl. destruct (http.Write w _ _); reflexivity.
  - destruct Hfired as [->|]; [|discriminate]. simpl.
    destruct wrote; simpl; [reflexivity|].
    destruct (http.WriteHeader w http.StatusRequestTimeout w'); [|reflexivity].
    simpl. destruct (http.Write w _ _); reflexivity.
Qed.
End WithTimeout.

(** C9, where the code departs from it: a handler that has begun its
    response with Write, without WriteHeader, and is still running at the
    deadline.  The timeout path finds wroteHeader unset and calls
    WriteHeader(408) and Write("Request timeout\n") on a response that
    the handler has already started: the recorder keeps the implicit 200
    of the first Write and receives the timeout text after the bytes of
    the handler. *)
Theorem WithTimeout_writes_408_after_handler_wrote :
  HandlerFunc.WithTimeout clock_Done writes_then_sleeps 50
    timed_recorder anonymous (0, ([], http.NewRecorder))
  = Return tt
      (100,
       ([http.CallWrite (bytes "partial");
         http.CallWriteHeader 408;
         http.CallWrite (bytes ("Request timeout" +:+ http.LF))],
        {| http.Code := 200; http.HeaderMap := ∅;
           http.Body := bytes "partial"
                        ++ bytes ("Request timeout" +:+ http.LF);
           http.wroteHeader := true |})).
Proof. vm_compute. reflexivity. Qed.


(** ** Stringers *)

(** StringerFunc("John").WithSuffix(" ").Compose(StringerFunc("Doe")) *)
Example StringerFunc_John_Doe :
  StringerFunc.Compose
    (StringerFunc.WithSuffix (ret "John"%string) " "%string)
    (ret "Doe"%string) tt
  = Return "John Doe"%string tt.
Proof. reflexivity. Qed.

(** * Further properties *)

(** ** Sources: Filter *)

Section ReadFilter.
Context {W : Type}.
Variable predicate : byte -> bool.
Variable p0 : list byte.

Lemma ReadFunc_filter_loop_compacts todo : forall i K (w : W),
  K = List.filter predicate (take i p0) ->
  (i + todo <= length p0)%nat ->
  let K' := List.filter predicate (take (i + todo) p0) in
  ReadFunc.filter_loop (fun b => ret (predicate b)) todo i (length K)
    (K ++ drop (length K) p0) w
  = Return (length K', K' ++ drop (length K') p0) w.
Proof.
  induction todo as [|todo IH]; intros i K w HK Hle K'.
  - subst K'. rewrite Nat.add_0_r, <- HK. reflexivity.
  - assert (HKi : (length K <= i)%nat).
    { subst K. etrans; [apply List.filter_length_le|].
      rewrite length_take. lia. }
    destruct (lookup_lt_is_Some_2 p0 i ltac:(lia)) as [b Hb].
    assert (Hidx : (K ++ drop (length K) p0) !! i = Some b).
    { rewrite lookup_app_r by lia. rewrite lookup_drop.
      now replace (length K + (i - length K))%nat with i by lia. }
    cbn [ReadFunc.filter_loop]. unfold index. rewrite Hidx.
    unfold bind at 1, ret at 1. unfold bind at 1, ret at 1.
    assert (Htake : take (S i) p0 = take i p0 ++ [b]) by now apply take_S_r.
    subst K'. replace (i + S todo)%nat with (S i + todo)%nat by lia.
    destruct (predicate b) eqn:Hp.
    + destruct (lookup_lt_is_Some_2 p0 (length K) ltac:(lia)) as [y Hy].
      assert (Hins : <[length K := b]> (K ++ drop (length K) p0)
                     = (K ++ [b]) ++ drop (length (K ++ [b])) p0).
      { rewrite insert_app_r_alt by lia. rewrite Nat.sub_diag.
        rewrite (drop_S _ _ _ Hy). simpl.
        rewrite <- app_assoc, length_app. simpl.
        now replace (length K + 1)%nat with (S (length K)) by lia. }
      rewrite Hins.
      replace (S (length K)) with (length (K ++ [b]))
        by (rewrite length_app; simpl; lia).
      apply IH; [|lia].
      rewrite Htake, List.filter_app, <- HK. simpl. now rewrite Hp.
    + apply IH; [|lia].
      rewrite Htake, List.filter_app, <- HK. simpl. rewrite Hp.
      now rewrite app_nil_r.
Qed.

Lemma ReadFunc_filter_loop_out_of_range todo : forall i j (p : list byte) (w : W),
  (i <= length p)%nat ->
  (length p < i + todo)%nat ->
  ReadFunc.filter_loop (fun b => ret (predicate b)) todo i j p w = Panic.
Proof.
  induction todo as [|todo IH]; intros i j p w Hi Hlt; [lia|].
  cbn [ReadFunc.filter_loop]. unfold index.
  destruct (p !! i) as [b|] eqn:Hb; [|reflexivity].
  apply lookup_lt_Some in Hb.
  unfold bind at 1, ret at 1. unfold bind at 1, ret at 1.
  destruct (predicate b); apply IH; rewrite ?length_insert; lia.
Qed.
End ReadFilter.

(** X1: Filter over a read of n bytes, 0 <= n <= len(p): the count is the
    number of bytes of p[:n] that satisfy the predicate, never more than
    n; those bytes stand at the beginning of the buffer in their original
    order, the rest of the buffer is as the read left it, and the status
    is that of the read. *)
Theorem ReadFunc_Filter_compacts {W} (f : ReadFunc.t W) (predicate : byte -> bool)
    (p : list byte) (w : W) (n : Z) (err : error) (p1 : list byte) (w1 : W) :
  f p w = Return (n, err, p1) w1 ->
  0 <= n <= len p1 ->
  let kept := List.filter predicate (take (Z.to_nat n) p1) in
  ReadFunc.Filter f (fun b => ret (predicate b)) p w
  = Return (len kept, err, kept ++ drop (length kept) p1) w1
  /\ len kept <= n
  /\ Forall (fun b => predicate b = true) kept.
Proof.
  intros Hf Hn kept. unfold len in Hn. split; [|split].
  - unfold ReadFunc.Filter. rewrite (bind_Return _ _ _ _ _ Hf).
    case_decide.
    + pose proof (ReadFunc_filter_loop_compacts predicate p1 (Z.to_nat n)
                    0 [] w1 eq_refl ltac:(lia)) as Hloop.
      simpl in Hloop. rewrite (bind_Return _ _ _ _ _ Hloop). reflexivity.
    + assert (n = 0) as -> by lia. reflexivity.
  - subst kept. unfold len.
    pose proof (List.filter_length_le predicate (take (Z.to_nat n) p1)) as Hle.
    rewrite length_take in Hle. lia.
  - subst kept. apply Forall_forall. intros b Hb.
    apply list_elem_of_In, List.filter_In in Hb. tauto.
Qed.

(** The test of Filter: the letters of "abc123". *)
Lemma ReadFunc_Filter_compacts_witness :
  ReadFunc.Filter abc123 (fun b => ret (is_lower b)) (make 10) tt
  = Return (3, EOF, bytes "abc" ++ drop 3 (copy (make 10) (bytes "abc123"))) tt.
Proof.
  apply (proj1 (ReadFunc_Filter_compacts abc123 is_lower (make 10) tt
                  6 EOF (copy (make 10) (bytes "abc123")) tt eq_refl
                  ltac:(vm_compute; split; discriminate))).
Defined.

(** X2: Filter indexes the buffer up to the count it was given: over a
    read that reports more bytes than the buffer holds, it panics. *)
Theorem ReadFunc_Filter_overreported_count {W} (f : ReadFunc.t W)
    (predicate : byte -> bool)
    (p : list byte) (w : W) (n : Z) (err : error) (p1 : list byte) (w1 : W) :
  f p w = Return (n, err, p1) w1 ->
  len p1 < n ->
  ReadFunc.Filter f (fun b => ret (predicate b)) p w = Panic.
Proof.
  intros Hf Hn. unfold len in Hn. unfold ReadFunc.Filter.
  rewrite (bind_Return _ _ _ _ _ Hf). case_decide; [|lia].
  apply bind_Panic. apply ReadFunc_filter_loop_out_of_range; lia.
Qed.

Lemma ReadFunc_Filter_overreported_count_witness :
  ReadFunc.Filter overreporting (fun b => ret (is_lower b)) (make 4) tt = Panic.
Proof.
  apply (ReadFunc_Filter_overreported_count overreporting is_lower (make 4) tt
           5 ErrNil (make 4) tt eq_refl ltac:(vm_compute; reflexivity)).
Defined.

(** ** Sources: Tap *)

Lemma Tap_recording_step {W} (f : ReadFunc.t W) p l w n err p1 w1 :
  f p w = Return (n, err, p1) w1 ->
  0 <= n <= len p1 ->
  ReadFunc.Tap (lifted_reader f) recording p (l, w)
  = Return (n, err, p1) (l ++ [(take (Z.to_nat n) p1, n, err)], w1).
Proof.
  intros Hf Hn. unfold ReadFunc.Tap, lifted_reader.
  rewrite (bind_Return _ _ _ _ _ (call_Return _ l _ _ _ Hf)).
  unfold slice_to. case_decide; [|lia]. reflexivity.
Qed.

(** X3: Tap does not alter the stream.  Over a source that keeps the
    contract, any sequence of reads through Tap returns what the same
    reads from the source return, and the observer has been handed, read
    by read, the bytes p[:n], the count and the status that were
    returned. *)
Theorem ReadFunc_Tap_transparent {W} (f : ReadFunc.t W)
    (ps : list (list byte)) (l : list (list byte * Z * error)) (w : W) :
  well_behaved f ->
  exists rs w',
    ReadFunc.reads f ps w = Return rs w'
    /\ ReadFunc.reads (ReadFunc.Tap (lifted_reader f) recording) ps (l, w)
       = Return rs (l ++ delivered rs, w').
Proof.
  intros Hf. revert l w.
  induction ps as [|p ps IH]; intros l w.
  - exists [], w. split; [reflexivity|]. simpl. unfold ret.
    now rewrite app_nil_r.
  - destruct (Hf p w) as (n & err & p1 & w1 & Hcall & Hn & Hlen).
    destruct (IH (l ++ [(take (Z.to_nat n) p1, n, err)]) w1)
      as (rs & w' & Hrs & Htap).
    exists ((n, err, p1) :: rs), w'.
    cbn [ReadFunc.reads]. split.
    + rewrite (bind_Return _ _ _ _ _ Hcall), (bind_Return _ _ _ _ _ Hrs).
      reflexivity.
    + rewrite (bind_Return _ _ _ _ _
                 (Tap_recording_step f p l w n err p1 w1 Hcall
                    ltac:(unfold len in *; lia))).
      rewrite (bind_Return _ _ _ _ _ Htap).
      unfold ret, delivered. simpl. now rewrite <- app_assoc.
Qed.

Lemma hello_world_well_behaved {W} : well_behaved (@hello_world W).
Proof.
  intros p w. eexists _, _, _, _. split; [reflexivity|]. split.
  - unfold copied, len. lia.
  - unfold copy. rewrite length_app, length_take, length_drop. lia.
Qed.

(** Two reads of "hello world" into 5 bytes, tapped. *)
Lemma ReadFunc_Tap_transparent_witness :
  exists rs w',
    ReadFunc.reads hello_world [make 5; make 5] tt = Return rs w'
    /\ ReadFunc.reads (ReadFunc.Tap (lifted_reader hello_world) recording)
         [make 5; make 5] ([], tt)
       = Return rs ([] ++ delivered rs, w').
Proof.
  exact (ReadFunc_Tap_transparent hello_world [make 5; make 5] [] tt
           hello_world_well_behaved).
Defined.

(** ** Sources: Retry with a negative bound *)

(** X4: with a negative maxRetries the loop of Retry does not run: the
    read returns (0, nil) with the buffer and the world untouched, the
    source not being invoked. *)
Theorem ReadFunc_Retry_negative {W} (f : ReadFunc.t W) (k : Z)
    (p : list byte) (l : list unit) (w : W) :
  k < 0 ->
  ReadFunc.Retry (ReadFunc.counted f) k p (l, w) = Return (0, ErrNil, p) (l, w).
Proof.
  intros Hk. unfold ReadFunc.Retry.
  replace (Z.to_nat (k + 1)) with 0%nat by lia. reflexivity.
Qed.

Lemma ReadFunc_Retry_negative_witness :
  ReadFunc.Retry (ReadFunc.counted hello_world) (-1) (make 5) ([], tt)
  = Return (0, ErrNil, make 5) ([], tt).
Proof.
  apply (ReadFunc_Retry_negative hello_world (-1) (make 5) [] tt). lia.
Defined.

(** ** Sources: sequential composition is associative *)

(** Run the code of composed readers as far as it goes. *)
Ltac run_closure :=
  cbv beta iota zeta delta
    [code ReadFunc.Compose bind load store call ret lifted_reader
     fst snd negb].

(** The same, deciding each comparison of a status on the way. *)
Ltac decide_status :=
  repeat (run_closure;
          match goal with
          | |- context [decide (?e = EOF)] =>
              destruct (decide (e = EOF)); try congruence
          end);
  run_closure.

Section ComposeAssoc.
Context {W : Type}.
Variables f g h : ReadFunc.t W.

Let L := ReadFunc.Compose (code (ReadFunc.Compose f g)) (lifted_reader h).
Let R := ReadFunc.Compose (lifted_reader f) (code (ReadFunc.Compose g h)).

Lemma Compose_assoc_step p sl sr :
  assoc_phase sl sr ->
  match code L p sl, code R p sr with
  | Return r sl', Return r' sr' => r = r' /\ assoc_phase sl' sr'
  | Panic, Panic => True
  | _, _ => False
  end.
Proof.
  intros Hphase. subst L R.
  destruct Hphase as [w|w|b w]; run_closure.
  - destruct (f p w) as [[[n e] q] w1|]; [|exact I].
    decide_status; [|split; [reflexivity|constructor]].
    destruct (g q w1) as [[[n2 e2] q2] w2|]; [|exact I].
    decide_status; [|split; [reflexivity|constructor]].
    destruct (h q2 w2) as [r w3|]; run_closure; [|exact I].
    split; [reflexivity|constructor].
  - destruct (g p w) as [[[n2 e2] q2] w2|]; [|exact I].
    decide_status; [|split; [reflexivity|constructor]].
    destruct (h q2 w2) as [r w3|]; run_closure; [|exact I].
    split; [reflexivity|constructor].
  - destruct (h p w) as [r w3|]; run_closure; [|exact I].
    split; [reflexivity|constructor].
Qed.

Lemma Compose_assoc_reads ps : forall sl sr,
  assoc_phase sl sr ->
  alike (ReadFunc.reads (code L) ps sl) (ReadFunc.reads (code R) ps sr).
Proof.
  induction ps as [|p ps IH]; intros sl sr Hphase.
  - simpl. split; [reflexivity|]. now destruct Hphase.
  - cbn [ReadFunc.reads]. unfold bind at 1 3.
    pose proof (Compose_assoc_step p sl sr Hphase) as Hstep.
    destruct (code L p sl) as [r sl'|], (code R p sr) as [r' sr'|];
      try contradiction; [|exact I].
    destruct Hstep as [<- Hphase'].
    specialize (IH sl' sr' Hphase'). unfold bind, alike in *.
    destruct (ReadFunc.reads (code L) ps sl') as [rs sl2|],
             (ReadFunc.reads (code R) ps sr') as [rs' sr2|];
      try contradiction; [|exact I].
    destruct IH as [<- Hw]. simpl. split; [reflexivity|exact Hw].
Qed.
End ComposeAssoc.

(** X5: sequential composition of sources is associative.  Any sequence
    of reads from f.Compose(g).Compose(h) and from f.Compose(g.Compose(h)),
    each freshly built, gives the same results and buffers and leaves the
    same world, or panics in both. *)
Theorem ReadFunc_Compose_associative {W} (f g h : ReadFunc.t W)
    (ps : list (list byte)) (w : W) :
  let fg := ReadFunc.Compose f g in
  let gh := ReadFunc.Compose g h in
  let L := ReadFunc.Compose (code fg) (lifted_reader h) in
  let R := ReadFunc.Compose (lifted_reader f) (code gh) in
  alike (ReadFunc.reads (code L) ps (start L (start fg w)))
        (ReadFunc.reads (code R) ps (start R (start gh w))).
Proof.
  intros fg gh L R.
  exact (Compose_assoc_reads f g h ps _ _ (phase_first w)).
Qed.

(** ** Sinks: Tee of Tee, Tee of one, TeeWriter *)

Section TeeLaws.
Context {W : Type}.
Implicit Types (ws : list (WriteFunc.t W)) (p : list byte).

Lemma tee_loop_result ws p : forall w n err w',
  WriteFunc.tee_loop ws p w = Return (n, err) w' ->
  err = ErrNil -> n = len p.
Proof.
  induction ws as [|s ws IH]; intros w n err w' Hloop Herr.
  - simpl in Hloop. unfold ret in Hloop. congruence.
  - cbn [WriteFunc.tee_loop] in Hloop. unfold bind in Hloop.
    destruct (s p w) as [[n1 err1] w1|]; [|discriminate].
    repeat case_decide; unfold ret in Hloop; try congruence.
    now apply (IH w1 n err w').
Qed.

Lemma tee_loop_app ws ws' p : forall w,
  WriteFunc.tee_loop (ws ++ ws') p w
  = match WriteFunc.tee_loop ws p w with
    | Return r w' =>
        if decide (r.2 = ErrNil) then WriteFunc.tee_loop ws' p w'
        else Return r w'
    | Panic => Panic
    end.
Proof.
  induction ws as [|s ws IH]; intros w.
  - reflexivity.
  - cbn [app WriteFunc.tee_loop]. unfold bind.
    destruct (s p w) as [[n1 err1] w1|]; [|reflexivity].
    repeat case_decide; unfold ret; simpl;
      try (case_decide; congruence); try reflexivity; apply IH.
Qed.

Lemma TeeWriter_loop_is_tee_loop ws p w :
  TeeWriter_loop ws p w = WriteFunc.tee_loop ws p w.
Proof.
  revert w. induction ws as [|s ws IH]; intros w; [reflexivity|].
  cbn [TeeWriter_loop WriteFunc.tee_loop]. unfold bind.
  destruct (s p w) as [[n err] w1|]; [|reflexivity].
  repeat case_decide; try reflexivity; apply IH.
Qed.
End TeeLaws.

Lemma Tee_first {W} (f : WriteFunc.t W) ys p w :
  WriteFunc.Tee f ys p w
  = match f p w with
    | Return r w' =>
        if decide (r.2 <> ErrNil) then Return r w'
        else if decide (r.1 <> len p) then Return (r.1, ErrShortWrite) w'
        else WriteFunc.tee_loop ys p w'
    | Panic => Panic
    end.
Proof.
  unfold WriteFunc.Tee. cbn [app WriteFunc.tee_loop]. unfold bind.
  destruct (f p w) as [[n err] w'|]; [|reflexivity].
  simpl. repeat case_decide; reflexivity.
Qed.

(** X6: a tee of a tee is the tee of all the sinks: f.Tee(xs...).Tee(ys...)
    and f.Tee(xs..., ys...) have the same outcome on every buffer. *)
Theorem WriteFunc_Tee_of_Tee {W} (f : WriteFunc.t W)
    (xs ys : list (WriteFunc.t W)) (p : list byte) (w : W) :
  WriteFunc.Tee (WriteFunc.Tee f xs) ys p w = WriteFunc.Tee f (xs ++ ys) p w.
Proof.
  change (WriteFunc.Tee f (xs ++ ys) p w)
    with (WriteFunc.tee_loop ((f :: xs) ++ ys) p w).
  rewrite tee_loop_app, (Tee_first (WriteFunc.Tee f xs) ys).
  change (WriteFunc.Tee f xs p w) with (WriteFunc.tee_loop (f :: xs) p w).
  destruct (WriteFunc.tee_loop (f :: xs) p w) as [[n err] w'|] eqn:Hloop;
    [|reflexivity].
  pose proof (tee_loop_result _ _ _ _ _ _ Hloop) as Hfull.
  simpl. repeat case_decide; try congruence; try reflexivity.
  destruct err; try congruence. now specialize (Hfull eq_refl).
Qed.

(** X7: a tee of the sink alone, and the sink composed with the empty
    sink, are the sink with its short writes made errors: an error is
    returned as it is, a count other than len(p) with the short-write
    status, a full write as (len(p), nil). *)
Theorem WriteFunc_Tee_alone {W} (f g : WriteFunc.t W)
    (p : list byte) (w : W) (r : Z * error) (w' : W) :
  f p w = Return r w' ->
  WriteFunc.Tee f [] p w = Return (normalised (len p) r) w'
  /\ WriteFunc.Compose f (WriteFunc.Empty g) p w
     = Return (normalised (len p) r) w'.
Proof.
  intros Hf. destruct r as [n err]. split.
  - unfold WriteFunc.Tee. cbn [app WriteFunc.tee_loop].
    rewrite (bind_Return _ _ _ _ _ Hf).
    unfold normalised, ret; simpl. repeat case_decide; congruence.
  - unfold WriteFunc.Compose, WriteFunc.Empty.
    rewrite (bind_Return _ _ _ _ _ Hf).
    unfold bind, normalised, ret; simpl. repeat case_decide; congruence.
Qed.

Lemma WriteFunc_Tee_alone_witness :
  WriteFunc.Tee (truncating 0) [] hi [] = Return (1, ErrShortWrite) [(0%nat, hi)]
  /\ WriteFunc.Compose (truncating 0) (WriteFunc.Empty (truncating 0)) hi []
     = Return (1, ErrShortWrite) [(0%nat, hi)].
Proof.
  exact (WriteFunc_Tee_alone (truncating 0) (truncating 0) hi []
           (1, ErrNil) [(0%nat, hi)] eq_refl).
Defined.

(** X8: TeeWriter over a list of writers is the tee of the first over
    the others, and over no writer at all it accepts every buffer. *)
Theorem TeeWriter_is_Tee {W} (f : WriteFunc.t W)
    (others : list (WriteFunc.t W)) (p : list byte) (w : W) :
  TeeWriter (f :: others) p w = WriteFunc.Tee f others p w
  /\ TeeWriter [] p w = Return (len p, ErrNil) w.
Proof.
  split; [|reflexivity].
  unfold TeeWriter, WriteFunc.Tee. apply TeeWriter_loop_is_tee_loop.
Qed.

(** ** Sinks: the two groupings of three composed sinks *)

(** X9: composing three sinks either way hands the buffer to the three
    of them in order.  The two groupings report the same result unless
    the first sink accepts a count other than len(p) without an error;
    when it does, and the second sink reports no error and the third
    fails, f.Compose(g).Compose(h) reports the short write of the first
    sink and f.Compose(g.Compose(h)) the failure of the third. *)
Theorem WriteFunc_Compose_grouping {W} (a b c : WriteFunc.t W)
    (p : list byte) (w : W) (ra rb rc : Z * error) (w1 w2 w3 : W) :
  a p w = Return ra w1 ->
  b p w1 = Return rb w2 ->
  c p w2 = Return rc w3 ->
  let left := compose_result (len p) (compose_result (len p) ra rb) rc in
  let right := compose_result (len p) ra (compose_result (len p) rb rc) in
  WriteFunc.Compose (WriteFunc.Compose a b) c p w = Return left w3
  /\ WriteFunc.Compose a (WriteFunc.Compose b c) p w = Return right w3
  /\ (ra.2 <> ErrNil \/ ra.1 = len p -> left = right)
  /\ (ra.2 = ErrNil -> ra.1 <> len p -> rb.2 = ErrNil -> rc.2 <> ErrNil ->
      left = (ra.1, ErrShortWrite) /\ right = rc).
Proof.
  intros Ha Hb Hc left right. subst left right.
  split; [|split; [|split]].
  - apply Compose_runs_both with (w1 := w2); [|assumption].
    now apply Compose_runs_both with (w1 := w1).
  - apply Compose_runs_both with (w1 := w1); [assumption|].
    now apply Compose_runs_both with (w1 := w2).
  - destruct ra as [na ea], rb as [nb eb], rc as [nc ec].
    unfold compose_result; simpl. intros Hfirst.
    repeat case_decide; simpl in *; try congruence;
      destruct Hfirst; congruence.
  - destruct ra as [na ea], rb as [nb eb], rc as [nc ec].
    unfold compose_result; simpl. intros -> Hna -> Hc'.
    repeat case_decide; simpl in *; try congruence. split; reflexivity.
Qed.

(** A first sink that drops a byte, a second that accepts, a third that
    fails. *)
Lemma WriteFunc_Compose_grouping_witness :
  WriteFunc.Compose (WriteFunc.Compose (truncating 0) (accepting 1))
    (failing 2 "disk full") hi []
  = Return (1, ErrShortWrite) [(0, hi); (1, hi); (2, hi)]%nat
  /\ WriteFunc.Compose (truncating 0)
       (WriteFunc.Compose (accepting 1) (failing 2 "disk full")) hi []
     = Return (0, errors_New "disk full") [(0, hi); (1, hi); (2, hi)]%nat.
Proof.
  destruct (WriteFunc_Compose_grouping (truncating 0) (accepting 1)
              (failing 2 "disk full") hi []
              (1, ErrNil) (2, ErrNil) (0, errors_New "disk full")
              [(0, hi)]%nat [(0, hi); (1, hi)]%nat
              [(0, hi); (1, hi); (2, hi)]%nat eq_refl eq_refl eq_refl)
    as (Hl & Hr & _ & _).
  split; [exact Hl|exact Hr].
Defined.

(** ** Sinks: WithMetrics *)

Lemma wrap64_add_l a b : wrap64 (wrap64 a + b) = wrap64 (a + b).
Proof.
  unfold wrap64. f_equal.
  replace ((a + 2 ^ 63) mod 2 ^ 64 - 2 ^ 63 + b + 2 ^ 63)
    with ((a + 2 ^ 63) mod 2 ^ 64 + b) by lia.
  rewrite Zplus_mod_idemp_l. f_equal. lia.
Qed.

Lemma wrap64_int64 z : int64 z -> wrap64 z = z.
Proof.
  unfold int64, wrap64. intros H. rewrite Z.mod_small; lia.
Qed.

Lemma wrap64_is_int64 z : int64 (wrap64 z).
Proof.
  unfold int64, wrap64.
  pose proof (Z.mod_pos_bound (z + 2 ^ 63) (2 ^ 64) ltac:(lia)). lia.
Qed.

Section WithMetrics.
Context {W : Type}.
Variable Now : W -> Z.
Variable f : WriteFunc.t W.

Lemma WithMetrics_step p m s r s' :
  f p s = Return r s' ->
  int64 (Errors m) ->
  exists m',
    WithMetrics Now f p (m, s) = Return r (m', s')
    /\ counts_from m [r] m' /\ int64 (Errors m').
Proof.
  intros Hf Hm. destruct r as [n err]. unfold WithMetrics.
  unfold bind at 1. unfold call at 1. simpl.
  rewrite (bind_Return _ _ _ _ _ (call_Return _ m _ _ _ Hf)).
  unfold bind, load, call, store, ret; simpl.
  eexists. split; [reflexivity|]. unfold counts_from, accepted, failures; simpl.
  rewrite !Z.add_0_r. split; [split; [reflexivity|split; [reflexivity|]]|].
  - case_decide; [reflexivity|]. rewrite Z.add_0_r. now rewrite wrap64_int64.
  - case_decide; [apply wrap64_is_int64|assumption].
Qed.

Lemma WithMetrics_writes ps : forall m s rs s',
  writes f ps s = Return rs s' ->
  int64 (TotalWrites m) -> int64 (TotalBytes m) -> int64 (Errors m) ->
  exists m',
    writes (WithMetrics Now f) ps (m, s) = Return rs (m', s')
    /\ counts_from m rs m' /\ int64 (Errors m').
Proof.
  induction ps as [|p ps IH]; intros m s rs s' Hws Hw Hb He.
  - simpl in Hws. unfold ret in Hws. injection Hws as <- <-.
    exists m. split; [reflexivity|]. split; [|assumption].
    unfold counts_from, accepted, failures, len; simpl.
    rewrite !Z.add_0_r, !wrap64_int64 by assumption. tauto.
  - cbn [writes] in Hws. unfold bind in Hws.
    destruct (f p s) as [r s1|] eqn:Hf; [|discriminate].
    destruct (writes f ps s1) as [rs1 s2|] eqn:Hrest; [|discriminate].
    unfold ret in Hws. injection Hws as <- <-.
    destruct (WithMetrics_step p m s r s1 Hf He)
      as (m1 & Hstep & (Hw1 & Hb1 & He1) & Hint1).
    destruct (IH m1 s1 rs1 s2 Hrest
                ltac:(rewrite Hw1; apply wrap64_is_int64)
                ltac:(rewrite Hb1; apply wrap64_is_int64) Hint1)
      as (m' & Hwrites & (Hw2 & Hb2 & He2) & Hint2).
    exists m'. cbn [writes].
    rewrite (bind_Return _ _ _ _ _ Hstep), (bind_Return _ _ _ _ _ Hwrites).
    split; [reflexivity|]. split; [|assumption].
    unfold counts_from in *.
    rewrite Hw2, Hb2, He2, Hw1, Hb1, He1, !wrap64_add_l.
    unfold accepted, failures, len in *; simpl.
    split; [|split]; f_equal; lia.
Qed.
End WithMetrics.

Lemma failures_bound rs : 0 <= failures rs <= len rs.
Proof.
  unfold len. induction rs as [|r rs IH]; simpl; [lia|].
  case_decide; lia.
Qed.

(** X10: WithMetrics does not alter the writes: a sequence of writes
    through it returns the results of the same writes to the writer and
    leaves the writer's world as they do.  Afterwards TotalWrites has
    grown by the number of writes, TotalBytes by the counts returned and
    Errors by the number of writes that returned an error, which is at
    most the number of writes; the counters are int64 and wrap around. *)
Theorem WithMetrics_counts {W} (Now : W -> Z) (f : WriteFunc.t W)
    (ps : list (list byte)) (m : WriteMetrics) (s : W)
    (rs : list (Z * error)) (s' : W) :
  writes f ps s = Return rs s' ->
  int64 (TotalWrites m) -> int64 (TotalBytes m) -> int64 (Errors m) ->
  exists m',
    writes (WithMetrics Now f) ps (m, s) = Return rs (m', s')
    /\ counts_from m rs m'
    /\ 0 <= failures rs <= len rs.
Proof.
  intros Hws Hw Hb He.
  destruct (WithMetrics_writes Now f ps m s rs s' Hws Hw Hb He)
    as (m' & Hwrites & Hcounts & _).
  exists m'. split; [exact Hwrites|]. split; [exact Hcounts|].
  apply failures_bound.
Qed.

(** Three writes of "hi", the second to a failing sink. *)
Lemma WithMetrics_counts_witness :
  let sink : WriteFunc.t (list (nat * list byte)) :=
    fun p l => if decide (length l = 1%nat) then failing 0 "disk full" p l
               else accepting 0 p l in
  exists m',
    writes (WithMetrics (fun _ => 0) sink) [hi; hi; hi] (zero_metrics, [])
    = Return [(2, ErrNil); (0, errors_New "disk full"); (2, ErrNil)]
        (m', [(0, hi); (0, hi); (0, hi)]%nat)
    /\ TotalWrites m' = 3 /\ TotalBytes m' = 4 /\ Errors m' = 1.
Proof.
  intros sink.
  destruct (WithMetrics_counts (fun _ => 0) sink [hi; hi; hi] zero_metrics []
              [(2, ErrNil); (0, errors_New "disk full"); (2, ErrNil)]
              [(0, hi); (0, hi); (0, hi)]%nat eq_refl
              ltac:(vm_compute; split; [discriminate|reflexivity])
              ltac:(vm_compute; split; [discriminate|reflexivity])
              ltac:(vm_compute; split; [discriminate|reflexivity]))
    as (m' & Hwrites & (Hw & Hb & He) & _).
  exists m'. split; [exact Hwrites|].
  rewrite Hw, Hb, He. repeat split.
Defined.

(** ** Handlers: Compose, Before, After *)

(** X11: the handlers form a monoid under Compose: the empty handler is
    an identity on either side and Compose is associative, outcome for
    outcome.  Before and After are Compose with the added function first
    and last. *)
Theorem HandlerFunc_Compose_monoid {W} (e f g h : HandlerFunc.t W)
    (w : http.ResponseWriter W) (r : http.Request) (s : W) :
  HandlerFunc.Compose (HandlerFunc.Empty e) f w r s = f w r s
  /\ HandlerFunc.Compose f (HandlerFunc.Empty e) w r s = f w r s
  /\ HandlerFunc.Compose (HandlerFunc.Compose f g) h w r s
     = HandlerFunc.Compose f (HandlerFunc.Compose g h) w r s
  /\ HandlerFunc.Before f g w r s = HandlerFunc.Compose g f w r s
  /\ HandlerFunc.After f g w r s = HandlerFunc.Compose f g w r s.
Proof.
  unfold HandlerFunc.Compose, HandlerFunc.Empty, HandlerFunc.Before,
    HandlerFunc.After, bind, ret.
  repeat split.
  - destruct (f w r s) as [[] s'|]; reflexivity.
  - destruct (f w r s) as [[] s'|]; reflexivity.
Qed.

(** ** Handlers: WithCORS *)

(** X12: WithCORS sets its three headers on every response.  For a
    request whose method is OPTIONS it then writes the status 200 and
    returns: the wrapped handler, and whatever is wrapped inside it,
    does not run.  For any other request the wrapped handler runs on the
    response with the three headers set. *)
Theorem HandlerFunc_WithCORS_preflight {S : Type}
    (f : HandlerFunc.t (S * http.ResponseRecorder)) (origin : string)
    (r : http.Request) (s : S) (rw : http.ResponseRecorder) :
  let w := http.lifted http.recorder in
  let headers := with_cors origin (http.HeaderMap rw) in
  (http.Method r = "OPTIONS"%string ->
   HandlerFunc.WithCORS f origin w r (s, rw)
   = Return tt
       (s, {| http.Code := if http.wroteHeader rw then http.Code rw else 200;
              http.HeaderMap := headers;
              http.Body := http.Body rw;
              http.wroteHeader := true |}))
  /\ (http.Method r <> "OPTIONS"%string ->
      HandlerFunc.WithCORS f origin w r (s, rw)
      = f w r (s, {| http.Code := http.Code rw;
                     http.HeaderMap := headers;
                     http.Body := http.Body rw;
                     http.wroteHeader := http.wroteHeader rw |})).
Proof.
  intros w headers. unfold HandlerFunc.WithCORS.
  split; intros Hm; unfold bind; simpl; case_decide; try congruence.
  - unfold http.recorder_WriteHeader. simpl.
    destruct rw as [c hm b wrote]; simpl. destruct wrote; reflexivity.
  - reflexivity.
Qed.

(** A preflight request to an authenticated handler under WithCORS is
    answered 200 without the credentials being asked for. *)
Lemma HandlerFunc_WithCORS_preflight_witness :
  HandlerFunc.WithCORS
    (HandlerFunc.WithAuth http.Error respond_OK bearer_secret) "*"
    (http.lifted http.recorder) preflight (tt, http.NewRecorder)
  = Return tt
      (tt, {| http.Code := 200; http.HeaderMap := with_cors "*" ∅;
              http.Body := []; http.wroteHeader := true |}).
Proof.
  apply (proj1 (HandlerFunc_WithCORS_preflight
                  (HandlerFunc.WithAuth http.Error respond_OK bearer_secret)
                  "*" preflight tt http.NewRecorder)).
  reflexivity.
Defined.

(** ** Handlers: WithLogging *)

(** X13: WithLogging hands the logger the line "Request: METHOD TARGET",
    then runs the handler on the response writer it was given itself,
    and hands the logger the line "Completed: METHOD TARGET" once the
    handler has returned; TARGET is the path, followed by "?" and the
    query when the query is not empty.  With a logger that appends to a
    log: the handler runs with the first line, and not yet the second,
    in the log; what it does to the log and to the world stands, and
    the second line comes after it.  If the handler panics, so does the
    call. *)
Theorem HandlerFunc_WithLogging_lines {W}
    (f : HandlerFunc.t (list string * W))
    (w : http.ResponseWriter (list string * W)) (r : http.Request)
    (l : list string) (s : W) :
  let request := ("Request: " +:+ http.Method r +:+ " " +:+ target r)%string in
  let completed :=
    ("Completed: " +:+ http.Method r +:+ " " +:+ target r)%string in
  (forall l' s',
      f w r (l ++ [request], s) = Return tt (l', s') ->
      HandlerFunc.WithLogging f appending w r (l, s)
      = Return tt (l' ++ [completed], s'))
  /\ (f w r (l ++ [request], s) = Panic ->
      HandlerFunc.WithLogging f appending w r (l, s) = Panic).
Proof.
  intros request completed. subst request completed.
  unfold HandlerFunc.WithLogging, target, bind, appending. cbn [fst snd].
  split.
  - intros l' s' Hf. rewrite Hf. reflexivity.
  - intros Hf. rewrite Hf. reflexivity.
Qed.

(** The test of WithLogging, GET /test?foo=bar, with a handler that
    writes a line of its own to the log before it answers. *)
Lemma HandlerFunc_WithLogging_lines_witness :
  HandlerFunc.WithLogging logs_then_responds appending
    (http.lifted http.recorder) GET_test_foo_bar ([], http.NewRecorder)
  = Return tt
      (["Request: GET /test?foo=bar"%string; "handling"%string;
        "Completed: GET /test?foo=bar"%string],
       {| http.Code := 200; http.HeaderMap := ∅; http.Body := [];
          http.wroteHeader := true |}).
Proof.
  apply (proj1 (HandlerFunc_WithLogging_lines logs_then_responds
                  (http.lifted http.recorder) GET_test_foo_bar
                  [] http.NewRecorder)
           ["Request: GET /test?foo=bar"%string; "handling"%string]
           {| http.Code := 200; http.HeaderMap := ∅; http.Body := [];
              http.wroteHeader := true |}).
  reflexivity.
Defined.

(** ** Stringers and errors *)

Lemma string_app_assoc (a b c : string) : (a +:+ b) +:+ c = a +:+ (b +:+ c).
Proof.
  induction a as [|x a IH]; [reflexivity|].
  change (String x ((a +:+ b) +:+ c) = String x (a +:+ (b +:+ c))).
  now rewrite IH.
Qed.

Lemma string_app_nil_r (a : string) : a +:+ "" = a.
Proof.
  induction a as [|x a IH]; [reflexivity|].
  change (String x (a +:+ "") = String x a). now rewrite IH.
Qed.

Lemma concat_cons_suffixes sep parts : forall a,
  String.concat sep (a :: parts) = a +:+ suffixes sep parts.
Proof.
  induction parts as [|b parts IH]; intros a.
  - simpl. now rewrite string_app_nil_r.
  - change (String.concat sep (a :: b :: parts))
      with (a +:+ sep +:+ String.concat sep (b :: parts)).
    rewrite IH. reflexivity.
Qed.

(** X14: with the empty stringer as identity on the right as on the
    left, Compose is associative, outcome for outcome; WithPrefix and
    WithSuffix are Compose with a constant stringer before and after. *)
Theorem StringerFunc_Compose_monoid {W} (e f g h : StringerFunc.t W)
    (s : string) (w : W) :
  StringerFunc.Compose f (StringerFunc.Empty e) w = f w
  /\ StringerFunc.Compose (StringerFunc.Compose f g) h w
     = StringerFunc.Compose f (StringerFunc.Compose g h) w
  /\ StringerFunc.WithPrefix f s w = StringerFunc.Compose (ret s) f w
  /\ StringerFunc.WithSuffix f s w = StringerFunc.Compose f (ret s) w.
Proof.
  unfold StringerFunc.Compose, StringerFunc.Empty, StringerFunc.WithPrefix,
    StringerFunc.WithSuffix, bind, ret.
  split; [|split; [|split]].
  - destruct (f w) as [a w1|]; [|reflexivity]. now rewrite string_app_nil_r.
  - destruct (f w) as [a w1|]; [|reflexivity].
    destruct (g w1) as [b w2|]; [|reflexivity].
    destruct (h w2) as [c w3|]; [|reflexivity].
    now rewrite string_app_assoc.
  - reflexivity.
  - reflexivity.
Qed.

Section Join.
Context {W : Type}.
Variable sep : string.

Lemma Join_fold others : forall (acc : StringerFunc.t W) w,
  fold_left (fun acc o =>
               StringerFunc.Compose (StringerFunc.WithSuffix acc sep) o)
    others acc w
  = match acc w with
    | Return a w1 =>
        match StringerFunc.join_loop others w1 with
        | Return parts w2 => Return (a +:+ suffixes sep parts) w2
        | Panic => Panic
        end
    | Panic => Panic
    end.
Proof.
  induction others as [|o others IH]; intros acc w.
  - simpl. destruct (acc w) as [a w1|]; [|reflexivity].
    unfold ret. simpl. now rewrite string_app_nil_r.
  - cbn [fold_left]. rewrite IH.
    unfold StringerFunc.Compose, StringerFunc.WithSuffix.
    cbn [StringerFunc.join_loop]. unfold bind, ret.
    destruct (acc w) as [a w1|]; [|reflexivity].
    destruct (o w1) as [b w2|]; [|reflexivity].
    destruct (StringerFunc.join_loop others w2) as [parts w3|]; [|reflexivity].
    simpl. now rewrite !string_app_assoc.
Qed.
End Join.

(** X15: Join calls the stringer and then the others, in order, and
    joins what they return with the separator: it is the stringer
    composed with each of the others in turn, the separator put after
    what came before; with no others, Join is the stringer. *)
Theorem StringerFunc_Join_is_fold {W} (f : StringerFunc.t W) (sep : string)
    (others : list (StringerFunc.t W)) (w : W) :
  StringerFunc.Join f sep others w
  = fold_left (fun acc o =>
                 StringerFunc.Compose (StringerFunc.WithSuffix acc sep) o)
      others f w
  /\ StringerFunc.Join f sep [] w = f w.
Proof.
  assert (Hjoin : forall others,
             StringerFunc.Join f sep others w
             = fold_left (fun acc o =>
                 StringerFunc.Compose (StringerFunc.WithSuffix acc sep) o)
                 others f w).
  { intros os. rewrite Join_fold. unfold StringerFunc.Join.
    cbn [app StringerFunc.join_loop]. unfold bind, ret.
    destruct (f w) as [a w1|]; [|reflexivity].
    destruct (StringerFunc.join_loop os w1) as [parts w2|]; [|reflexivity].
    now rewrite concat_cons_suffixes. }
  split; [apply Hjoin|]. rewrite Hjoin. reflexivity.
Qed.

(** X16: composing errors is associative; wrapping twice is wrapping
    once with the two contexts joined by ": "; and the wrap of a
    composed error is the wrap of the first error composed with the
    second. *)
Theorem ErrorFunc_Compose_Wrap_laws {W} (f g h : ErrorFunc.t W)
    (c1 c2 : string) (w : W) :
  ErrorFunc.Compose (ErrorFunc.Compose f g) h w
  = ErrorFunc.Compose f (ErrorFunc.Compose g h) w
  /\ ErrorFunc.Wrap (ErrorFunc.Wrap f c1) c2 w
     = ErrorFunc.Wrap f (c2 +:+ ": " +:+ c1) w
  /\ ErrorFunc.Wrap (ErrorFunc.Compose f g) c1 w
     = ErrorFunc.Compose (ErrorFunc.Wrap f c1) g w.
Proof.
  unfold ErrorFunc.Compose, ErrorFunc.Wrap, bind, ret.
  split; [|split].
  - destruct (f w) as [a w1|]; [|reflexivity].
    destruct (g w1) as [b w2|]; [|reflexivity].
    destruct (h w2) as [c w3|]; [|reflexivity].
    now rewrite !string_app_assoc.
  - destruct (f w) as [a w1|]; [|reflexivity].
    now rewrite !string_app_assoc.
  - destruct (f w) as [a w1|]; [|reflexivity].
    destruct (g w1) as [b w2|]; [|reflexivity].
    now rewrite !string_app_assoc.
Qed.

(** ** ComposeReaders *)

Section ComposeReaders.
Context {W : Type}.
Variable readers : list (ReadFunc.t W).

Let C := ComposeReaders readers.

Lemma ComposeReaders_exhausted p idx w :
  (length readers <= idx)%nat ->
  code C p (idx, w) = Return (0, EOF, p) (idx, w).
Proof.
  intros Hidx. simpl. unfold bind, load; simpl.
  case_decide; [reflexivity|lia].
Qed.

Lemma ComposeReaders_exhausted_reads ps idx w :
  (length readers <= idx)%nat ->
  ReadFunc.reads (code C) ps (idx, w) = Return (end_of_stream ps) (idx, w).
Proof.
  intros Hidx. induction ps as [|p ps IH]; [reflexivity|].
  cbn [ReadFunc.reads].
  rewrite (bind_Return _ _ _ _ _ (ComposeReaders_exhausted p idx w Hidx)).
  now rewrite (bind_Return _ _ _ _ _ IH).
Qed.

(** One read while a reader is current. *)
Lemma ComposeReaders_current p idx w (rd : ReadFunc.t W) n err q w' :
  readers !! idx = Some rd ->
  rd p w = Return (n, err, q) w' ->
  code C p (idx, w)
  = if decide (err = EOF) then
      if decide (length readers <= S idx)%nat then Return (n, EOF, q) (S idx, w')
      else if decide (n = 0) then
        match readers !! S idx with
        | Some rd' => call (rd' q) (S idx, w')
        | None => Panic
        end
      else Return (n, err, q) (S idx, w')
    else Return (n, err, q) (idx, w').
Proof.
  intros Hrd Hcall.
  assert (Hlt : (idx < length readers)%nat) by exact (lookup_lt_Some _ _ _ Hrd).
  simpl. unfold bind at 1, load; simpl.
  destruct (decide (length readers <= idx)%nat); [lia|].
  unfold index. rewrite Hrd. unfold bind at 1, ret at 1.
  rewrite (bind_Return _ _ _ _ _ (call_Return _ idx _ _ _ Hcall)).
  destruct (decide (err = EOF)); [|reflexivity].
  unfold bind at 1, store; simpl.
  destruct (decide (length readers <= S idx)%nat); [reflexivity|].
  destruct (decide (n = 0)); [|reflexivity].
  destruct (readers !! S idx) as [rd'|]; reflexivity.
Qed.
End ComposeReaders.

Lemma sum_of_snoc l n : sum_of (l ++ [n]) = sum_of l + n.
Proof.
  unfold sum_of. induction l as [|x l IH]; simpl; [lia|]. rewrite IH. lia.
Qed.

Lemma metered_Return {W} (f : ReadFunc.t W) p l w n err q w' :
  f p w = Return (n, err, q) w' ->
  metered f p (l, w) = Return (n, err, q) (l ++ [n], w').
Proof. intros Hf. unfold metered. simpl. now rewrite Hf. Qed.

Section ComposeReadersMetered.
Context {W : Type}.
Variable readers : list (ReadFunc.t W).
Hypothesis Hreturn : Forall returns readers.

Let C := ComposeReaders (metered <$> readers).

Lemma ComposeReaders_metered_step p idx l w :
  exists r idx' l' w',
    code C p (idx, (l, w)) = Return r (idx', (l', w'))
    /\ sum_of l' = sum_of l + r.1.1.
Proof using Hreturn.
  destruct (decide (length readers <= idx)%nat) as [Hge|Hlt].
  - exists (0, EOF, p), idx, l, w. split; [|simpl; lia].
    apply ComposeReaders_exhausted. now rewrite length_fmap.
  - destruct (lookup_lt_is_Some_2 readers idx ltac:(lia)) as [rd Hrd].
    pose proof (proj1 (Forall_lookup _ _) Hreturn idx rd Hrd p w)
      as ([[n err] q] & w1 & Hcall).
    assert (Hrd' : (metered <$> readers) !! idx = Some (metered rd))
      by now rewrite list_lookup_fmap, Hrd.
    subst C.
    rewrite (ComposeReaders_current _ p idx (l, w) (metered rd) n err q
               (l ++ [n], w1) Hrd' (metered_Return rd p l w n err q w1 Hcall)).
    rewrite length_fmap.
    destruct (decide (err = EOF)) as [->|];
      [|exists (n, err, q), idx, (l ++ [n]), w1;
        split; [reflexivity|apply sum_of_snoc]].
    destruct (decide (length readers <= S idx)%nat) as [|Hmore];
      [exists (n, EOF, q), (S idx), (l ++ [n]), w1;
       split; [reflexivity|apply sum_of_snoc]|].
    destruct (decide (n = 0)) as [->|];
      [|exists (n, EOF, q), (S idx), (l ++ [n]), w1;
        split; [reflexivity|apply sum_of_snoc]].
    destruct (lookup_lt_is_Some_2 readers (S idx) ltac:(lia)) as [rd2 Hrd2].
    pose proof (proj1 (Forall_lookup _ _) Hreturn (S idx) rd2 Hrd2 q w1)
      as ([[n2 err2] q2] & w2 & Hcall2).
    rewrite list_lookup_fmap, Hrd2. simpl.
    exists (n2, err2, q2), (S idx), ((l ++ [0]) ++ [n2]), w2.
    split.
    + apply call_Return. now apply metered_Return.
    + rewrite !sum_of_snoc. simpl. lia.
Qed.

Lemma ComposeReaders_metered_reads ps : forall idx l w,
  exists rs idx' l' w',
    ReadFunc.reads (code C) ps (idx, (l, w)) = Return rs (idx', (l', w'))
    /\ sum_of l' = sum_of l + total rs.
Proof using Hreturn.
  induction ps as [|p ps IH]; intros idx l w.
  - exists [], idx, l, w. split; [reflexivity|]. simpl. lia.
  - destruct (ComposeReaders_metered_step p idx l w)
      as (r & idx1 & l1 & w1 & Hstep & Hsum1).
    destruct (IH idx1 l1 w1) as (rs & idx2 & l2 & w2 & Hrest & Hsum2).
    exists (r :: rs), idx2, l2, w2. cbn [ReadFunc.reads].
    rewrite (bind_Return _ _ _ _ _ Hstep), (bind_Return _ _ _ _ _ Hrest).
    split; [reflexivity|]. unfold total in *. simpl. lia.
Qed.
End ComposeReadersMetered.

(** X17: ComposeReaders hands on every byte that its readers produce.
    Over readers that return from every call, any sequence of reads
    returns, and the counts it returns add up to the counts returned by
    all the reads made of the readers. *)
Theorem ComposeReaders_conserves_bytes {W} (readers : list (ReadFunc.t W))
    (ps : list (list byte)) (w : W) :
  Forall returns readers ->
  let C := ComposeReaders (metered <$> readers) in
  exists rs idx l w',
    ReadFunc.reads (code C) ps (start C ([], w)) = Return rs (idx, (l, w'))
    /\ total rs = sum_of l.
Proof.
  intros Hreturn C.
  destruct (ComposeReaders_metered_reads readers Hreturn ps 0%nat [] w)
    as (rs & idx & l & w' & Hreads & Hsum).
  exists rs, idx, l, w'. split; [exact Hreads|]. simpl in Hsum. lia.
Qed.

Lemma hello_world_returns {W} : returns (@hello_world W).
Proof. intros p w. eexists _, _. reflexivity. Qed.

Lemma says_hi_returns {W} : returns (@says_hi W).
Proof. intros p w. eexists _, _. reflexivity. Qed.

(** "hello world" with EOF, then "hi": 11 and 2 bytes returned, 11 and 2
    bytes read. *)
Lemma ComposeReaders_conserves_bytes_witness :
  let C := ComposeReaders (metered <$> [hello_world; says_hi]) in
  exists rs idx l w',
    ReadFunc.reads (code C) [make 16; make 16] (start C ([], tt))
    = Return rs (idx, (l, w'))
    /\ total rs = sum_of l.
Proof.
  exact (ComposeReaders_conserves_bytes [hello_world; says_hi]
           [make 16; make 16] tt
           (Forall_cons_2 _ _ _ hello_world_returns
              (Forall_cons_2 _ _ _ says_hi_returns (Forall_nil_2 _)))).
Defined.

(** X18: what ComposeReaders does when the current reader reports EOF.
    If it is the last reader, its count is returned with EOF and every
    later read returns (0, EOF) without a reader being called.  If
    readers remain and the count is not zero, the count is returned
    together with EOF all the same, and the next reader is current from
    the next read on.  If readers remain and the count is zero, the next
    reader is read at once, on the same buffer, and its result is the
    result of the call. *)
Theorem ComposeReaders_reader_EOF {W} (readers : list (ReadFunc.t W))
    (p : list byte) (idx : nat) (w : W) (rd : ReadFunc.t W)
    (n : Z) (q : list byte) (w' : W) :
  readers !! idx = Some rd ->
  rd p w = Return (n, EOF, q) w' ->
  let C := ComposeReaders readers in
  (length readers = S idx ->
   code C p (idx, w) = Return (n, EOF, q) (S idx, w')
   /\ forall ps, ReadFunc.reads (code C) ps (S idx, w')
                 = Return (end_of_stream ps) (S idx, w'))
  /\ ((S idx < length readers)%nat -> n <> 0 ->
      code C p (idx, w) = Return (n, EOF, q) (S idx, w'))
  /\ (forall rd' : ReadFunc.t W,
        readers !! S idx = Some rd' -> n = 0 ->
        code C p (idx, w) = call (rd' q) (S idx, w')).
Proof.
  intros Hrd Hcall C. subst C.
  rewrite (ComposeReaders_current readers p idx w rd n EOF q w' Hrd Hcall).
  destruct (decide (EOF = EOF)); [|congruence].
  split; [|split].
  - intros Hlast. destruct (decide (length readers <= S idx)%nat); [|lia].
    split; [reflexivity|].
    intros ps. apply ComposeReaders_exhausted_reads. lia.
  - intros Hmore Hn. destruct (decide (length readers <= S idx)%nat); [lia|].
    destruct (decide (n = 0)); [congruence|reflexivity].
  - intros rd' Hrd' Hn.
    assert (Hlt : (S idx < length readers)%nat)
      by exact (lookup_lt_Some _ _ _ Hrd').
    destruct (decide (length readers <= S idx)%nat); [lia|].
    destruct (decide (n = 0)); [|congruence].
    unfold ReadFunc.t in *. now rewrite Hrd'.
Qed.

(** "hello world" with EOF while "hi" is still to come: 11 bytes and EOF. *)
Lemma ComposeReaders_reader_EOF_witness :
  code (ComposeReaders [hello_world; says_hi]) (make 16) (0%nat, tt)
  = Return (11, EOF, copy (make 16) (bytes "hello world")) (1%nat, tt).
Proof.
  apply (proj1 (proj2 (ComposeReaders_reader_EOF [hello_world; says_hi]
                         (make 16) 0 tt hello_world 11
                         (copy (make 16) (bytes "hello world")) tt
                         eq_refl eq_refl))).
  - simpl. lia.
  - lia.
Defined.

(** X19: with no reader left, and so from the start with no readers at
    all, every read from ComposeReaders returns (0, EOF) and leaves the
    buffer, the index and the world as they are. *)
Theorem ComposeReaders_none_left {W} (readers : list (ReadFunc.t W))
    (ps : list (list byte)) (idx : nat) (w : W) :
  (length readers <= idx)%nat ->
  ReadFunc.reads (code (ComposeReaders readers)) ps (idx, w)
  = Return (end_of_stream ps) (idx, w).
Proof.
  intros Hidx. induction ps as [|p ps IH]; [reflexivity|].
  cbn [ReadFunc.reads].
  rewrite (bind_Return _ _ _ _ _ (ComposeReaders_exhausted readers p idx w Hidx)).
  now rewrite (bind_Return _ _ _ _ _ IH).
Qed.

Lemma ComposeReaders_none_left_witness :
  ReadFunc.reads (code (ComposeReaders (W := unit) [])) [make 4; make 4]
    (start (ComposeReaders (W := unit) []) tt)
  = Return [(0, EOF, make 4); (0, EOF, make 4)] (0%nat, tt).
Proof.
  apply (ComposeReaders_none_left (W := unit) [] [make 4; make 4] 0 tt).
  simpl. lia.
Defined.

(** ** Handlers: WithTimeout around a handler that makes given calls *)

Section WithTimeoutCalls.
Context {W : Type}.
Variable ctx_Done : Z -> W -> W -> bool.
Variables (timeout : Z) (w : http.ResponseWriter W) (r : http.Request).
Variable w0 : W.

Let tw := HandlerFunc.guarded ctx_Done timeout w0 w.

(** After the deadline the calls of the handler change nothing. *)
Lemma performs_after_deadline ops : forall flag s,
  Forall writes_response ops ->
  ctx_Done timeout w0 s = true ->
  exists flag',
    performs ops tw r
      ({| HandlerFunc.timedOut := flag; HandlerFunc.wroteHeader := false |}, s)
    = Return tt
        ({| HandlerFunc.timedOut := flag';
            HandlerFunc.wroteHeader := false |}, s).
Proof.
  induction ops as [|op ops IH]; intros flag s Hops Hdone.
  - exists flag. reflexivity.
  - inversion Hops as [|? ? Hop Hops']; subst.
    destruct (IH 1 s Hops' Hdone) as [flag' Hrest]. exists flag'.
    cbn [performs]. unfold bind at 1.
    destruct op as [k v|k|b|c]; try contradiction; simpl;
      unfold HandlerFunc.select_ctx_Done, HandlerFunc.timeoutWriter_Write,
        HandlerFunc.timeoutWriter_WriteHeader, bind, load, call, store, ret;
      simpl; rewrite Hdone; simpl; exact Hrest.
Qed.

(** Before the deadline a call of the handler reaches the writer, unless
    it is a WriteHeader after a first one. *)
Lemma perform_before_deadline op wrote s :
  ctx_Done timeout w0 s = false ->
  perform tw op
    ({| HandlerFunc.timedOut := 0; HandlerFunc.wroteHeader := wrote |}, s)
  = if is_WriteHeader op && wrote then
      Return tt
        ({| HandlerFunc.timedOut := 0; HandlerFunc.wroteHeader := wrote |}, s)
    else
      match perform w op s with
      | Return _ s' =>
          Return tt
            ({| HandlerFunc.timedOut := 0;
                HandlerFunc.wroteHeader := wrote || is_WriteHeader op |}, s')
      | Panic => Panic
      end.
Proof.
  intros Hdone. destruct op as [k v|k|b|c]; simpl;
    unfold HandlerFunc.select_ctx_Done, HandlerFunc.timeoutWriter_Write,
      HandlerFunc.timeoutWriter_WriteHeader, bind, load, call, store, ret;
    simpl; rewrite ?Hdone; simpl.
  - destruct (http.Header_Set w k v s) as [[] s'|];
      rewrite ?orb_false_r; reflexivity.
  - destruct (http.Header_Del w k s) as [[] s'|];
      rewrite ?orb_false_r; reflexivity.
  - destruct (http.Write w b s) as [res s'|];
      rewrite ?orb_false_r; reflexivity.
  - destruct wrote; simpl; [reflexivity|].
    destruct (http.WriteHeader w c s) as [[] s'|]; reflexivity.
Qed.

Lemma performs_before_deadline ops : forall wrote s,
  (forall s', ctx_Done timeout w0 s' = false) ->
  exists wrote',
    performs ops tw r
      ({| HandlerFunc.timedOut := 0; HandlerFunc.wroteHeader := wrote |}, s)
    = match performs (first_header_only wrote ops) w r s with
      | Return _ s' =>
          Return tt
            ({| HandlerFunc.timedOut := 0;
                HandlerFunc.wroteHeader := wrote' |}, s')
      | Panic => Panic
      end.
Proof.
  induction ops as [|op ops IH]; intros wrote s Hnever.
  - exists wrote. reflexivity.
  - cbn [performs first_header_only]. unfold bind at 1.
    rewrite (perform_before_deadline op wrote s (Hnever s)).
    destruct (is_WriteHeader op && wrote).
    + apply IH, Hnever.
    + cbn [performs]. unfold bind at 1.
      destruct (perform w op s) as [[] s'|]; [|exists wrote; reflexivity].
      apply IH, Hnever.
Qed.
End WithTimeoutCalls.

(** X20: a handler that is still busy when the deadline passes, and
    calls Write and WriteHeader only afterwards, contributes nothing to
    the response: its calls are refused, and once it has returned the
    response is the 408 status and the "Request timeout" line written by
    the timeout path. *)
Theorem WithTimeout_late_handler {W} (ctx_Done : Z -> W -> W -> bool)
    (delay : M W unit) (ops : list http.method_call) (timeout : Z)
    (w : http.ResponseWriter W) (r : http.Request) (w0 w1 : W) :
  Forall writes_response ops ->
  delay w0 = Return tt w1 ->
  ctx_Done timeout w0 w1 = true ->
  HandlerFunc.WithTimeout ctx_Done (delayed delay ops) timeout w r w0
  = timeout_response w w1.
Proof.
  intros Hops Hdelay Hdone.
  destruct (performs_after_deadline ctx_Done timeout w r w0 ops 0 w1 Hops Hdone)
    as [flag Hperf].
  unfold HandlerFunc.WithTimeout, scoped, delayed.
  unfold bind at 1. unfold bind at 1.
  rewrite (call_Return _ _ _ _ _ Hdelay), Hperf.
  unfold timeout_response, HandlerFunc.select_ctx_Done,
    bind, load, call, store, ret; simpl.
  rewrite Hdone; simpl.
  destruct (http.WriteHeader w http.StatusRequestTimeout w1) as [[] s1|];
    [|reflexivity].
  simpl. destruct (http.Write w _ s1) as [[] s2|]; reflexivity.
Qed.

(** The handler sleeps for 100 against a timeout of 50, then answers. *)
Lemma WithTimeout_late_handler_witness :
  HandlerFunc.WithTimeout clock_Done
    (delayed (Sleep 100) [http.CallWriteHeader 200; http.CallWrite hi])
    50 timed_recorder anonymous (0, ([], http.NewRecorder))
  = Return tt
      (100,
       ([http.CallWriteHeader 408;
         http.CallWrite (bytes ("Request timeout" +:+ http.LF))],
        {| http.Code := 408; http.HeaderMap := ∅;
           http.Body := bytes ("Request timeout" +:+ http.LF);
           http.wroteHeader := true |})).
Proof.
  rewrite (WithTimeout_late_handler clock_Done (Sleep 100)
             [http.CallWriteHeader 200; http.CallWrite hi] 50
             timed_recorder anonymous (0, ([], http.NewRecorder))
             (100, ([], http.NewRecorder))
             ltac:(repeat constructor) eq_refl eq_refl).
  reflexivity.
Defined.

(** X21: while the deadline does not pass, the response writer receives
    the calls of the handler, except that of several calls of
    WriteHeader only the first is passed on; the timeout path writes
    nothing. *)
Theorem WithTimeout_in_time {W} (ctx_Done : Z -> W -> W -> bool)
    (ops : list http.method_call) (timeout : Z)
    (w : http.ResponseWriter W) (r : http.Request) (w0 : W) :
  (forall s, ctx_Done timeout w0 s = false) ->
  HandlerFunc.WithTimeout ctx_Done (performs ops) timeout w r w0
  = performs (first_header_only false ops) w r w0.
Proof.
  intros Hnever.
  destruct (performs_before_deadline ctx_Done timeout w r w0 ops false w0 Hnever)
    as [wrote Hperf].
  unfold HandlerFunc.WithTimeout, scoped. unfold bind at 1. rewrite Hperf.
  destruct (performs (first_header_only false ops) w r w0) as [[] s'|];
    [|reflexivity].
  unfold HandlerFunc.select_ctx_Done, bind, load, call, store, ret; simpl.
  now rewrite Hnever.
Qed.

(** Two calls of WriteHeader and a Write, in time. *)
Lemma WithTimeout_in_time_witness :
  HandlerFunc.WithTimeout never_Done
    (performs [http.CallWriteHeader 201; http.CallWriteHeader 500;
               http.CallWrite hi])
    50 (http.observed http.recorder) anonymous ([], http.NewRecorder)
  = Return tt
      ([http.CallWriteHeader 201; http.CallWrite hi],
       {| http.Code := 201; http.HeaderMap := ∅; http.Body := hi;
          http.wroteHeader := true |}).
Proof.
  rewrite (WithTimeout_in_time never_Done
             [http.CallWriteHeader 201; http.CallWriteHeader 500;
              http.CallWrite hi]
             50 (http.observed http.recorder) anonymous
             ([], http.NewRecorder) (fun _ => eq_refl)).
  reflexivity.
Defined.

(** ** Sources: Take with budget to spare *)

Lemma room_nonneg ps : 0 <= room ps.
Proof.
  induction ps as [|p ps IH]; [reflexivity|].
  change (room (p :: ps)) with (len p + room ps). unfold len. lia.
Qed.

Section TakeTransparent.
Context {W : Type}.
Variable f : ReadFunc.t W.
Variable limit : Z.
Hypothesis Hf : well_behaved f.

Lemma Take_transparent_reads ps : forall r w,
  room ps < r < 2 ^ 63 ->
  exists rs w',
    ReadFunc.reads f ps w = Return rs w'
    /\ ReadFunc.reads (code (ReadFunc.Take f limit)) ps (r, w)
       = Return rs (r - total rs, w')
    /\ total rs <= room ps.
Proof using Hf.
  induction ps as [|p ps IH]; intros r w Hr.
  - exists [], w. split; [reflexivity|]. simpl. unfold ret.
    rewrite Z.sub_0_r. split; [reflexivity|lia].
  - change (room (p :: ps)) with (len p + room ps) in Hr.
    assert (Hp : 0 <= len p) by (unfold len; lia).
    pose proof (room_nonneg ps) as Hroom.
    destruct (Hf p w) as (n & err & p' & w1 & Hcall & Hn & Hlen).
    destruct (IH (r - n) w1 ltac:(unfold len in *; lia))
      as (rs & w' & Hrs & Htake & Htot).
    exists ((n, err, p') :: rs), w'. cbn [ReadFunc.reads].
    split; [|split].
    + now rewrite (bind_Return _ _ _ _ _ Hcall), (bind_Return _ _ _ _ _ Hrs).
    + assert (Hstep : code (ReadFunc.Take f limit) p (r, w)
                      = Return (n, err, p') (r - n, w1)).
      { simpl. unfold bind at 1, load; simpl.
        destruct (decide (r <= 0)); [lia|].
        destruct (decide (r < len p)); [lia|].
        rewrite (bind_Return _ _ _ _ _ (call_Return _ r _ _ _ Hcall)).
        unfold bind, store, ret; simpl.
        unfold copy. rewrite take_ge by lia.
        rewrite drop_ge by lia. rewrite app_nil_r.
        do 2 f_equal. unfold wrap64. rewrite Z.mod_small; lia. }
      rewrite (bind_Return _ _ _ _ _ Hstep), (bind_Return _ _ _ _ _ Htake).
      unfold ret, total; simpl. fold (total rs).
      now replace (r - (n + total rs)) with (r - n - total rs) by lia.
    + change (room (p :: ps)) with (len p + room ps).
      change (total ((n, err, p') :: rs)) with (n + total rs). lia.
Qed.
End TakeTransparent.

(** X22: Take with budget to spare does not alter the stream.  Over a
    source that keeps the contract, a sequence of reads whose buffers
    together are smaller than the limit returns through Take(limit)
    what it returns from the source, buffers included, and leaves the
    same world. *)
Theorem ReadFunc_Take_with_room {W} (f : ReadFunc.t W) (limit : Z)
    (ps : list (list byte)) (w : W) :
  well_behaved f ->
  room ps < limit < 2 ^ 63 ->
  let T := ReadFunc.Take f limit in
  exists rs w',
    ReadFunc.reads f ps w = Return rs w'
    /\ ReadFunc.reads (code T) ps (start T w)
       = Return rs (limit - total rs, w').
Proof.
  intros Hf Hroom T.
  destruct (Take_transparent_reads f limit Hf ps limit w Hroom)
    as (rs & w' & Hrs & Htake & _).
  now exists rs, w'.
Qed.

Lemma ReadFunc_Take_with_room_witness :
  let T := ReadFunc.Take hello_world 100 in
  exists rs w',
    ReadFunc.reads hello_world [make 5; make 5] tt = Return rs w'
    /\ ReadFunc.reads (code T) [make 5; make 5] (start T tt)
       = Return rs (100 - total rs, w').
Proof.
  exact (ReadFunc_Take_with_room hello_world 100 [make 5; make 5] tt
           hello_world_well_behaved ltac:(vm_compute; split; reflexivity)).
Defined.
